(** * Boost.Http.Proto: the incremental header parser and the BNF helpers

    A shallow embedding of [basic_parser] (impl/basic_parser.ipp) and of
    the [bnf] algorithms [consume], [is_valid] (bnf/algorithm.hpp).

    Conventions of the embedding:
    - a [char] is a [Z] (its code, 0..255); the parser's heap array
      [buffer_] is a [list Z] whose length is the allocated size;
    - a [char*] into the array is a [Z] offset from [buffer_]; pointer
      differences are signed ([ptrdiff_t]) and are plain [Z] subtractions;
    - a [std::size_t] is a [Z] kept in [0, 2^64) by [wrap];
    - [error_code& ec] is returned next to the result. *)

From Stdlib Require Import ZArith Lia String Ascii.
From stdpp Require Import base option list.
Local Open Scope Z_scope.

(** ** Bytes and the heap array *)

Definition SP : Z := 32.
Definition HTAB : Z := 9.
Definition CR : Z := 13.
Definition LF : Z := 10.
Definition COLON : Z := 58.

(** [*(buffer_ + i)].  The C++ read is undefined before the array and at
    or past its end; the embedding reads 0 there. *)
Definition rd (b : list Z) (i : Z) : Z :=
  if i <? 0 then 0 else default 0 (b !! Z.to_nat i).

(** [buffer_[i] = c] (nothing is stored outside the array). *)
Definition wr (b : list Z) (i : Z) (c : Z) : list Z :=
  if i <? 0 then b else <[Z.to_nat i := c]> b.

(** The [n] bytes of a [string_view(buffer_ + i, n)]. *)
Definition sub (b : list Z) (i n : Z) : list Z :=
  take (Z.to_nat n) (drop (Z.to_nat i) b).

Definition wrap (x : Z) : Z := x mod 2 ^ 64.

(** ** error.hpp *)

(** Modelled from the spec: the [error] enumeration (error.hpp is not
    among the sources); [success] is the value-initialised [error_code]
    written [ec = {}]. *)
Inductive error_code : Set :=
  | success
  | need_more
  | end_
  | bad_version
  | bad_field
  | bad_line_ending
  | bad_value
  | bad_content_length
  | bad_transfer_encoding
  | bad_chunk
  | bad_message
  | header_limit
  | body_limit
  | incomplete.

#[global] Instance error_code_eq_dec : EqDecision error_code.
Proof. solve_decision. Defined.

(** [if(ec)]: a code tests true when it holds an error value. *)
Definition is_set (ec : error_code) : bool :=
  match ec with success => false | _ => true end.

(** ** ctype.hpp *)

Module ctype.

Record char_set : Type := { contains : Z -> bool }.

(** Modelled from the spec: the whitespace set ([SP], [HTAB]); ctype.hpp
    is not among the sources. *)
Definition ws_set : char_set :=
  {| contains c := (c =? SP) || (c =? HTAB) |}.

(** DIGIT and ALPHA of the grammar comment. *)
Definition is_digit (c : Z) : bool := (48 <=? c) && (c <=? 57).
Definition is_alpha (c : Z) : bool :=
  ((65 <=? c) && (c <=? 90)) || ((97 <=? c) && (c <=? 122)).

(** Modelled from the spec: tchar, as listed in the grammar comment of
    [parse_field]:
    "!" / "#" / "$" / "%" / "&" / "'" / "*" / "+" / "-" / "." /
    "^" / "_" / "`" / "|" / "~" / DIGIT / ALPHA *)
Definition tchar_set : char_set :=
  {| contains c :=
       is_digit c || is_alpha c ||
       bool_decide (c ∈ [33; 35; 36; 37; 38; 39; 42; 43; 45; 46;
                         94; 95; 96; 124; 126]) |}.

(** Modelled from the spec: field-vchar, any visible ASCII character. *)
Definition field_vchar_set : char_set :=
  {| contains c := (33 <=? c) && (c <=? 126) |}.

(** Modelled from the spec: the loop of the set-skipping scanner, over
    the bytes [l] found from [it] onwards:
    [while(it != last && contains( *it )) ++it;] *)
Fixpoint skip_from (s : char_set) (l : list Z) (it last : Z) : Z :=
  match l with
  | [] => it
  | c :: l' =>
      if it =? last then it
      else if contains s c then skip_from s l' (it + 1) last
      else it
  end.

(** Modelled from the spec: the set-skipping scanner
    [s.skip(first, last)]; it returns the first position that is [last]
    or holds a byte outside the set. *)
Definition skip (s : char_set) (b : list Z) (first last : Z) : Z :=
  skip_from s (drop (Z.to_nat first) b) first last.

End ctype.
Import ctype.

(** ** basic_parser: members and construction *)

Module state.
(** Modelled from the spec: the [state] enumeration of basic_parser.hpp. *)
Inductive t : Set :=
  | nothing_yet
  | start_line
  | fields
  | body
  | chunk_header
  | chunk_body
  | chunk_trailer
  | complete
  | failed.

#[global] Instance eq_dec : EqDecision t.
Proof. solve_decision. Defined.
End state.

Module field.
(** The identifiers [parse_field] dispatches on; every other value of
    the enumeration (field.hpp) is [other]. *)
Inductive t : Set :=
  | connection
  | proxy_connection
  | content_length
  | transfer_encoding
  | upgrade
  | other.
End field.

(** The members of [basic_parser]; [buffer_ = None] is [nullptr].
    [version_] has no initialiser in the constructor: [None] until
    [parse_version] assigns it. *)
Record basic_parser : Type := mk_parser {
  buffer_ : option (list Z);
  capacity_ : Z;
  committed_ : Z;
  parsed_ : Z;
  state_ : state.t;
  header_limit_ : Z;
  skip_ : Z;
  f_ : Z;
  version_ : option Z
}.

(** [basic_parser::basic_parser(context&)] *)
Definition construct : basic_parser :=
  {| buffer_ := None;
     capacity_ := 0;
     committed_ := 0;
     parsed_ := 0;
     state_ := state.nothing_yet;
     header_limit_ := 8192;
     skip_ := 0;
     f_ := 0;
     version_ := None |}.

(** [basic_parser::reset()]: the body is empty. *)
Definition reset (p : basic_parser) : basic_parser := p.

(** [basic_parser::commit_eof()]: the body is empty. *)
Definition commit_eof (p : basic_parser) : basic_parser := p.

Definition set_buffer (p : basic_parser) (b : option (list Z)) (cap : Z) : basic_parser :=
  {| buffer_ := b; capacity_ := cap; committed_ := committed_ p;
     parsed_ := parsed_ p; state_ := state_ p;
     header_limit_ := header_limit_ p; skip_ := skip_ p; f_ := f_ p;
     version_ := version_ p |}.

Definition set_committed (p : basic_parser) (n : Z) : basic_parser :=
  {| buffer_ := buffer_ p; capacity_ := capacity_ p; committed_ := n;
     parsed_ := parsed_ p; state_ := state_ p;
     header_limit_ := header_limit_ p; skip_ := skip_ p; f_ := f_ p;
     version_ := version_ p |}.

Definition set_state (p : basic_parser) (s : state.t) : basic_parser :=
  {| buffer_ := buffer_ p; capacity_ := capacity_ p;
     committed_ := committed_ p; parsed_ := parsed_ p; state_ := s;
     header_limit_ := header_limit_ p; skip_ := skip_ p; f_ := f_ p;
     version_ := version_ p |}.

Definition set_header_limit (p : basic_parser) (n : Z) : basic_parser :=
  {| buffer_ := buffer_ p; capacity_ := capacity_ p;
     committed_ := committed_ p; parsed_ := parsed_ p; state_ := state_ p;
     header_limit_ := n; skip_ := skip_ p; f_ := f_ p;
     version_ := version_ p |}.

(** [new char[n]]: the contents are indeterminate; [junk] says what byte
    the allocator leaves at each index. *)
Definition new_array (junk : Z -> Z) (n : Z) : list Z :=
  junk <$> seqZ 0 n.

(** [basic_parser::prepare()]: the parser afterwards and the returned
    pair (offset of [buffer_ + committed_], [capacity_ - committed_]). *)
Definition prepare (junk : Z -> Z) (p : basic_parser) : basic_parser * (Z * Z) :=
  let p' :=
    match buffer_ p with
    | None => set_buffer p (Some (new_array junk 4096)) 4096
    | Some old =>
        if capacity_ p <=? committed_ p then
          let cap := wrap (capacity_ p + 4096) in
          let fresh := new_array junk cap in
          let n := Z.to_nat (committed_ p) in
          set_buffer p (Some (take n old ++ drop n fresh)) cap
        else p
    end in
  (p', (committed_ p', wrap (capacity_ p' - committed_ p'))).

(** The two [BOOST_ASSERT]s of [commit]. *)
Definition commit_pre (n : Z) (p : basic_parser) : Prop :=
  0 < n /\ n <= wrap (capacity_ p - committed_ p).

(** [basic_parser::commit(n)] *)
Definition commit (n : Z) (p : basic_parser) : basic_parser :=
  set_committed p (wrap (committed_ p + n)).

(** ** parse_version *)

(** [std::memcmp(buffer_ + it, s, |s|)]: 0 when the bytes agree, else
    the difference at the first byte that differs. *)
Fixpoint memcmp (b : list Z) (it : Z) (s : list Z) : Z :=
  match s with
  | [] => 0
  | c :: s' => if rd b it =? c then memcmp b (it + 1) s' else rd b it - c
  end.

(** "HTTP/1." *)
Definition http_1_dot : list Z := [72; 84; 84; 80; 47; 49; 46].

(** [basic_parser::parse_version(first, last, ec)]: the new [first], the
    error code and [version_]. *)
Definition parse_version (b : list Z) (first last : Z) (version : option Z)
  : Z * error_code * option Z :=
  let it := first in
  if last - it <? 8 then (first, need_more, version)
  else if negb (memcmp b it http_1_dot =? 0) then (first, bad_version, version)
  else
    let it := it + 7 in
    if rd b it =? 48 then (it + 1, success, Some 0)
    else if rd b it =? 49 then (it + 1, success, Some 1)
    else (first, bad_version, version).

(** ** parse_field *)

(** What [parse_field] and [parse_header] take from outside this
    translation unit: the virtual [parse_start_line] of the derived
    parser (it is handed the array and the cursor pair, moves [first],
    reports through [ec] and may record [version_] through
    [parse_version]) and the lookup [string_to_field] of field.hpp. *)
Record start_line_result : Type := {
  sl_first : Z;
  sl_ec : error_code;
  sl_buf : list Z;
  sl_version : option Z
}.

Class parser_env : Type := {
  parse_start_line : list Z -> Z -> Z -> option Z -> start_line_result;
  string_to_field : list Z -> field.t
}.

(** A [string_view] into the array: offset and length. *)
Definition span : Type := (Z * Z)%type.

(** [do_connection], [do_content_length], [do_transfer_encoding],
    [do_upgrade]: the bodies only discard their arguments. *)
Definition do_connection (v : span) (ec : error_code) : error_code := ec.
Definition do_content_length (v : span) (ec : error_code) : error_code := ec.
Definition do_transfer_encoding (v : span) (ec : error_code) : error_code := ec.
Definition do_upgrade (v : span) (ec : error_code) : error_code := ec.

(** How the value loop of [parse_field] is left: [break] at an end of
    line (array, [in], [v0], [v1]) or [return start] with an error. *)
Inductive loop_exit : Type :=
  | end_of_line (b : list Z) (it v0 v1 : Z)
  | fail (b : list Z) (ec : error_code).

Inductive loop_step : Type :=
  | exit (r : loop_exit)
  | continue (b : list Z) (it : Z) (v0 : option Z).

(** The tail of the loop body, from the comment "obs-fold / CRLF" on. *)
Definition fold_or_crlf (b : list Z) (en it : Z) (v0 : option Z) : loop_step :=
  if rd b it =? CR then
    if negb (rd b (it + 1) =? LF) then exit (fail b bad_line_ending)
    else if negb (contains ws_set (rd b (it + 2))) then
      exit (end_of_line b (it + 2) (default it v0) it)
    else
      let b := wr (wr (wr b it SP) (it + 1) SP) (it + 2) SP in
      let it := it + 3 in
      continue b (skip ws_set b it en) v0
  else exit (fail b bad_field).

(** One turn of [for(;;)] in [parse_field]; [v0 = None] is [nullptr]. *)
Definition value_step (b : list Z) (en it : Z) (v0 : option Z) : loop_step :=
  if it =? en then exit (fail b need_more)
  else if contains field_vchar_set (rd b it) then
    let v0 := Some (default it v0) in
    let it := it + 1 in
    let it := skip field_vchar_set b it en in
    if it =? en then exit (fail b need_more)
    else if contains ws_set (rd b it) then
      let it := skip ws_set b it en in
      if rd b it =? CR then
        if negb (rd b (it + 1) =? LF) then exit (fail b bad_line_ending)
        else if contains ws_set (rd b (it + 2)) then exit (fail b bad_value)
        else exit (end_of_line b (it + 2) (default it v0) it)
      else fold_or_crlf b en it v0
    else fold_or_crlf b en it v0
  else fold_or_crlf b en it v0.

(** The loop; [None] when [fuel] turns were not enough. *)
Fixpoint value_loop (fuel : nat) (b : list Z) (en it : Z) (v0 : option Z)
  : option loop_exit :=
  match fuel with
  | O => None
  | S fuel' =>
      match value_step b en it v0 with
      | exit r => Some r
      | continue b' it' v0' => value_loop fuel' b' en it' v0'
      end
  end.

(** What [parse_field] leaves: the returned pointer, [ec], the array
    and, when the field was read to its end of line, the views [k] and
    [v] of its name and value. *)
Record field_result : Type := {
  fr_in : Z;
  fr_ec : error_code;
  fr_buf : list Z;
  fr_kv : option (span * span)
}.

(** [basic_parser::parse_field(start, end, ec)]; [parse_fields] calls it
    with a clean [ec] and with [start != end], which the function
    asserts.  Every turn of the value
    loop that goes on has read a CR inside the array and moved on by at
    least three bytes, so [S (length b)] turns are enough
    ([value_loop_fuel]); the [None] branch is never taken. *)
Definition parse_field `{parser_env} (b : list Z) (start en : Z) : field_result :=
  let stop ec := {| fr_in := start; fr_ec := ec; fr_buf := b; fr_kv := None |} in
  if en - start <? 3 then stop need_more
  else
    let en := en - 3 in
    let it := skip tchar_set b start en in
    if it =? en then stop need_more
    else if negb (rd b it =? COLON) then stop bad_field
    else if it =? start then stop bad_field
    else
      let k1 := it in
      let it := it + 1 in
      let it := skip ws_set b it en in
      match value_loop (S (length b)) b en it None with
      | None => stop need_more
      | Some (fail b' ec) =>
          {| fr_in := start; fr_ec := ec; fr_buf := b'; fr_kv := None |}
      | Some (end_of_line b' it v0 v1) =>
          let k : span := (start, k1 - start) in
          let v : span := (v0, v1 - v0) in
          let ec :=
            match string_to_field (sub b' (fst k) (snd k)) with
            | field.connection | field.proxy_connection => do_connection v success
            | field.content_length => do_content_length v success
            | field.transfer_encoding => do_transfer_encoding v success
            | field.upgrade => do_upgrade v success
            | field.other => success
            end in
          {| fr_in := it; fr_ec := ec; fr_buf := b'; fr_kv := Some (k, v) |}
      end.

(** ** parse_fields *)

(** The loop of [parse_fields]: [first] equals [in] at the top of every
    turn, so one cursor [it] stands for both. *)
Fixpoint fields_loop `{parser_env} (fuel : nat) (b : list Z) (it last : Z)
  : option (Z * error_code * list Z) :=
  match fuel with
  | O => None
  | S fuel' =>
      if last - it <? 2 then Some (it, need_more, b)
      else if rd b it =? CR then
        if negb (rd b (it + 1) =? LF) then Some (it, bad_line_ending, b)
        else Some (it + 2, success, b)
      else
        let r := parse_field b it last in
        if is_set (fr_ec r) then Some (it, fr_ec r, fr_buf r)
        else fields_loop fuel' (fr_buf r) (fr_in r) last
  end.

(** [basic_parser::parse_fields(first, last, ec)]: the new [first], [ec]
    and the array.  A field that parses moves the cursor forward, so
    [last - first] turns (and one) are enough ([fields_loop_fuel]). *)
Definition parse_fields `{parser_env} (b : list Z) (first last : Z)
  : Z * error_code * list Z :=
  match fields_loop (S (Z.to_nat (last - first))) b first last with
  | Some r => r
  | None => (first, need_more, b)
  end.

(** ** parse_header and the body operations *)

(** The label [finish:] with what the switch has set by then. *)
Definition finish (p : basic_parser) (b : list Z) (first : Z)
    (ver : option Z) (st : state.t) (ec : error_code) : basic_parser * error_code :=
  ({| buffer_ := (fun _ => b) <$> buffer_ p;
      capacity_ := capacity_ p;
      committed_ := committed_ p;
      parsed_ := wrap first;
      state_ := st;
      header_limit_ := header_limit_ p;
      skip_ := skip_ p;
      f_ := f_ p;
      version_ := ver |}, ec).

(** [case state::fields] of [parse_header]. *)
Definition header_fields `{parser_env} (p : basic_parser) (b : list Z)
    (first last : Z) (ver : option Z) : basic_parser * error_code :=
  let '(first', ec, b') := parse_fields b first last in
  if is_set ec then finish p b' first' ver state.fields ec
  else finish p b' first' ver state.body ec.

(** [basic_parser::parse_header(ec)].  The debug checks
    [BOOST_ASSERT(parsed_ == 0)] and [BOOST_ASSERT(! ec)] have no effect
    on the result and are left out. *)
Definition parse_header `{parser_env} (p : basic_parser) : basic_parser * error_code :=
  if committed_ p =? 0 then (p, need_more)
  else
    let b := default [] (buffer_ p) in
    let first := parsed_ p in
    let last := committed_ p in
    match state_ p with
    | state.nothing_yet | state.start_line =>
        let r := parse_start_line b first last (version_ p) in
        if is_set (sl_ec r) then
          finish p (sl_buf r) (sl_first r) (sl_version r) state.start_line (sl_ec r)
        else header_fields p (sl_buf r) (sl_first r) last (sl_version r)
    | state.fields => header_fields p b first last (version_ p)
    | st => finish p b first (version_ p) st success
    end.

(** [basic_parser::parse_body(ec)]: [ec] is left as the caller passed it. *)
Definition parse_body (p : basic_parser) (ec : error_code) : basic_parser * error_code :=
  match state_ p with
  | state.nothing_yet => (set_state p state.start_line, ec)
  | _ => (p, ec)
  end.

(** [basic_parser::parse_body_part(ec)] *)
Definition parse_body_part (p : basic_parser) (ec : error_code) : basic_parser * error_code :=
  match state_ p with
  | state.nothing_yet => (set_state p state.start_line, ec)
  | _ => (p, ec)
  end.

(** [parse_chunk_ext], [parse_chunk_part], [parse_chunk_trailer]: the
    bodies only discard [ec]. *)
Definition parse_chunk_ext (p : basic_parser) (ec : error_code) : basic_parser * error_code := (p, ec).
Definition parse_chunk_part (p : basic_parser) (ec : error_code) : basic_parser * error_code := (p, ec).
Definition parse_chunk_trailer (p : basic_parser) (ec : error_code) : basic_parser * error_code := (p, ec).

(** [basic_parser::body()]: [{nullptr, 0}]. *)
Definition body (p : basic_parser) : option Z * Z := (None, 0).

(** ** bnf/algorithm.hpp *)

Module bnf.

(** [ec.failed()] of Boost.System, as the category of error.hpp (not
    among the sources) answers it. *)
Class error_category : Type := failed : error_code -> bool.

(** A type with [is_element]: [e.parse(start, end, ec)] on a
    default-constructed [e] and a value-initialised [ec] gives the
    returned pointer and [ec]. *)
Class Element (E : Type) : Type :=
  parse : list Z -> Z -> Z -> Z * error_code.

(** A type with [is_list]: [members] is the state of the list object;
    [begin(start, end, ec)] and [increment(it, end, ec)] give the object
    afterwards, the returned pointer and [ec]. *)
Class List (L : Type) : Type := {
  members : Type;
  begin_ : list Z -> Z -> Z -> members * Z * error_code;
  increment : members -> list Z -> Z -> Z -> error_code -> members * Z * error_code
}.

(** [consume<Element>(start, end)].  Both early returns carry
    [BOOST_ASSERT(it == start)]: an element is expected to leave the
    pointer alone unless it signals [error::end]. *)
Definition consume_element (E : Type) `{error_category, Element E}
    (b : list Z) (start en : Z) : Z :=
  let '(it, ec) := parse (E := E) b start en in
  if failed ec then start
  else if negb (bool_decide (ec = end_)) then start
  else it.

(** The [for(;;)] of [consume<List>]; [None] when [fuel] turns were not
    enough (the C++ loop has no bound of its own). *)
Fixpoint consume_loop (L : Type) `{error_category, List L} (fuel : nat)
    (e : members (L := L)) (b : list Z) (start it en : Z) (ec : error_code) : option Z :=
  match fuel with
  | O => None
  | S fuel' =>
      if bool_decide (ec = end_) then Some it
      else if failed ec then Some start
      else
        let '(e', it', ec') := increment e b it en ec in
        consume_loop L fuel' e' b start it' en ec'
  end.

(** [consume<List>(start, end)] *)
Definition consume_list (L : Type) `{error_category, List L} (fuel : nat)
    (b : list Z) (start en : Z) : option Z :=
  let '(e, it, ec) := begin_ (L := L) b start en in
  consume_loop L fuel e b start it en ec.

(** [consume<BNF>] as overload resolution finds it, by [is_element] or
    by [is_list]. *)
Class BNF (B : Type) : Type :=
  consume : nat -> list Z -> Z -> Z -> option Z.

#[global] Instance element_BNF (E : Type) `{error_category, Element E} : BNF E :=
  fun _ b start en => Some (consume_element E b start en).

#[global] Instance list_BNF (L : Type) `{error_category, List L} : BNF L :=
  fun fuel b start en => consume_list L fuel b start en.

(** [is_valid<BNF>(s)]; the view [s] is the whole list, [s.data()] is
    offset 0 and [end] is its length. *)
Definition is_valid (B : Type) `{BNF B} (fuel : nat) (s : list Z) : option bool :=
  let en := Z.of_nat (length s) in
  (fun it => bool_decide (it = en)) <$> consume (B := B) fuel s 0 en.

(** [validate<BNF>(s)]: [inr tt] stands for the thrown [invalid_argument]. *)
Definition validate (B : Type) `{BNF B} (fuel : nat) (s : list Z) : option (unit + unit) :=
  (fun ok : bool => if ok then inl tt else inr tt) <$> is_valid B fuel s.

End bnf.

(** ** A request parser and a caller, for the scenarios *)

(** The character codes of a string literal. *)
Definition bytes (s : string) : list Z :=
  (fun a => Z.of_N (N_of_ascii a)) <$> list_ascii_of_string s.

(** CR LF *)
Definition crlf : list Z := [CR; LF].

(** ASCII case folding and comparison, [A..Z] onto [a..z]. *)
Definition to_lower (c : Z) : Z :=
  if (65 <=? c) && (c <=? 90) then c + 32 else c.

Definition iequals (a b : list Z) : bool :=
  bool_decide (to_lower <$> a = to_lower <$> b).

(** Modelled from the spec: name-to-id lookup, case-insensitive ASCII,
    for the five names the parser dispatches on (field.hpp is not among
    the sources). *)
Definition lookup_field (k : list Z) : field.t :=
  if iequals k (bytes "Connection"%string) then field.connection
  else if iequals k (bytes "Proxy-Connection"%string) then field.proxy_connection
  else if iequals k (bytes "Content-Length"%string) then field.content_length
  else if iequals k (bytes "Transfer-Encoding"%string) then field.transfer_encoding
  else if iequals k (bytes "Upgrade"%string) then field.upgrade
  else field.other.

(** The bytes of a request-target: anything but SP. *)
Definition target_set : char_set := {| contains c := negb (c =? SP) |}.

(** Modelled from the spec: the request-line
    [method SP request-target SP HTTP-version CRLF] (the derived
    request parser is not among the sources); the method is a token and
    the target runs to the next SP. *)
Definition request_line (b : list Z) (first last : Z) (ver : option Z)
  : start_line_result :=
  let stop ec := {| sl_first := first; sl_ec := ec; sl_buf := b; sl_version := ver |} in
  let it := skip tchar_set b first last in
  if it =? last then stop need_more
  else if (it =? first) || negb (rd b it =? SP) then stop bad_message
  else
    let it := skip target_set b (it + 1) last in
    if it =? last then stop need_more
    else
      let '(it', ec, ver') := parse_version b (it + 1) last ver in
      if is_set ec then stop ec
      else if last - it' <? 2 then stop need_more
      else if negb ((rd b it' =? CR) && (rd b (it' + 1) =? LF)) then stop bad_line_ending
      else {| sl_first := it' + 2; sl_ec := success; sl_buf := b; sl_version := ver' |}.

(** The request parser: the base class with this start line and lookup. *)
Definition request_parser : parser_env :=
  {| parse_start_line := request_line; string_to_field := lookup_field |}.

(** The caller copies [data] into the region that [prepare] returned. *)
Definition store (p : basic_parser) (off : Z) (data : list Z) : basic_parser :=
  let put b := take (Z.to_nat off) b ++ data
                 ++ drop (Z.to_nat off + length data) b in
  set_buffer p (put <$> buffer_ p) (capacity_ p).

(** One round of input: [prepare], copy [data] into the region, then
    [commit(n)]. *)
Definition receive (junk : Z -> Z) (data : list Z) (n : Z) (p : basic_parser)
  : basic_parser :=
  let '(p', (off, _)) := prepare junk p in
  commit n (store p' off data).

(** An allocator that hands out zeroed memory. *)
Definition zeros : Z -> Z := fun _ => 0.

(** Scenario S2 of the specification. *)
Definition msg_fold : list Z :=
  bytes "GET / HTTP/1.1"%string ++ crlf ++ bytes "X: a"%string ++ crlf
    ++ bytes " b"%string ++ crlf ++ crlf.

(** The field block of S2 alone. *)
Definition fold_field : list Z :=
  bytes "X: a"%string ++ crlf ++ bytes " b"%string ++ crlf ++ crlf.

(** A request whose single field value fills 8200 bytes. *)
Definition msg_long : list Z :=
  bytes "GET / HTTP/1.1"%string ++ crlf ++ bytes "X: "%string
    ++ replicate (Z.to_nat 8200) 97 ++ crlf ++ crlf.

(** [msg_long] delivered in three rounds of at most 4096 bytes. *)
Definition long_parser : basic_parser :=
  let chunk := Z.to_nat 4096 in
  receive zeros (drop (chunk + chunk) msg_long)
    (Z.of_nat (length msg_long) - 8192)
    (receive zeros (take chunk (drop chunk msg_long)) 4096
       (receive zeros (take chunk msg_long) 4096 construct)).

(** A request whose first field has an empty name. *)
Definition msg_bad : list Z :=
  bytes "GET / HTTP/1.1"%string ++ crlf ++ bytes ": x"%string ++ crlf ++ crlf.

(** ** Predicates of the statements *)

(** [n] bytes read from offset [i] on. *)
Definition peek (b : list Z) (i : Z) (n : Z) : list Z :=
  (fun k => rd b (i + k)) <$> seqZ 0 n.

(** An obs-fold of the array at [j]: CR LF and then SP or HTAB. *)
Definition obs_fold (b : list Z) (j : Z) : Prop :=
  rd b j = CR /\ rd b (j + 1) = LF /\ contains ws_set (rd b (j + 2)) = true.

(** Three SP bytes at [j]. *)
Definition blanked (b : list Z) (j : Z) : Prop :=
  rd b j = SP /\ rd b (j + 1) = SP /\ rd b (j + 2) = SP.

(** A byte of field content or of whitespace at [j]. *)
Definition plain (b : list Z) (j : Z) : Prop :=
  contains field_vchar_set (rd b j) = true \/ contains ws_set (rd b j) = true.

(** The array after the three stores of the fold branch. *)
Definition blank_fold (b : list Z) (j : Z) : list Z :=
  wr (wr (wr b j SP) (j + 1) SP) (j + 2) SP.

(** The error codes that field parsing assigns. *)
Definition field_error (ec : error_code) : Prop :=
  ec = need_more \/ ec = bad_field \/ ec = bad_line_ending \/ ec = bad_value.

(** What a run of the value loop that ends at an end of line has done
    to the array and where the value lies. *)
Definition loop_post (b : list Z) (it : Z) (v0 : option Z)
    (b' : list Z) (v0' v1' : Z) : Prop :=
  length b' = length b /\
  it <= v1' /\
  match v0 with Some x => v0' = x | None => it <= v0' <= v1' end /\
  (forall i, i < it -> rd b' i = rd b i) /\
  (forall i, rd b' i <> rd b i ->
     rd b' i = SP /\ exists j, it <= j /\ j <= i <= j + 2 /\ obs_fold b j) /\
  (forall j, it <= j < v1' ->
     rd b' j <> CR /\ rd b' j <> LF /\ (obs_fold b j -> blanked b' j)).

(** The cursor invariant of the message buffer. *)
Definition cursor_inv (p : basic_parser) : Prop :=
  0 <= parsed_ p /\ parsed_ p <= committed_ p /\ committed_ p <= capacity_ p.

(** A parser that differs from a freshly constructed one in its array
    and capacity at most. *)
Definition blank (p : basic_parser) : Prop :=
  set_buffer p None 0 = construct.

(** The parser that received all of S2, and the one that received the
    request with the nameless field. *)
Definition fold_parser : basic_parser := receive zeros msg_fold 28 construct.
Definition bad_parser : basic_parser := receive zeros msg_bad 23 construct.

(** The caller copied all 28 bytes of S2 into the region and committed
    the first 24 of them. *)
Definition short_parser : basic_parser := receive zeros msg_fold 24 construct.

(** The request line of S2 was received and parsed; then two more bytes,
    CR LF, arrived. *)
Definition blank_line_parser : basic_parser :=
  receive zeros crlf 2
    (fst (parse_header (H := request_parser)
            (receive zeros (bytes "GET / HTTP/1.1"%string ++ crlf) 16 construct))).

(** Modelled from the spec: a category in which [need_more] ("not a
    failure") and [end] (a signal of the BNF contract) do not fail. *)
Definition signal_category : bnf.error_category :=
  fun ec =>
    match ec with
    | success | need_more | end_ => false
    | _ => true
    end.

(** An element that matches one CRLF and signals [end] behind it. *)
Inductive crlf_rule : Set := crlf_rule_tag.

Definition crlf_element : bnf.Element crlf_rule :=
  fun b start en =>
    if en - start <? 2 then (start, need_more)
    else if (rd b start =? CR) && (rd b (start + 1) =? LF) then (start + 2, end_)
    else (start, bad_line_ending).

(** The caller received 24 bytes of S2; behind them the allocator had
    left CR, LF and zeros. *)
Definition leftovers : Z -> Z :=
  fun i => if i =? 24 then CR else if i =? 25 then LF else 0.

Definition leftover_parser : basic_parser :=
  receive leftovers (take 24 msg_fold) 24 construct.

(** S2 delivered in two rounds, 26 bytes and then the closing CRLF, with
    a call of [parse_header] after each. *)
Definition split_first : basic_parser * error_code :=
  parse_header (H := request_parser)
    (receive zeros (take 26 msg_fold) 26 construct).

Definition split_second : basic_parser * error_code :=
  parse_header (H := request_parser) (receive zeros crlf 2 (fst split_first)).

(** The parsers that a caller can bring about: construction followed by
    any sequence of the public operations and of stores into the array. *)
Inductive reachable `{parser_env} : basic_parser -> Prop :=
  | reach_construct : reachable construct
  | reach_reset p : reachable p -> reachable (reset p)
  | reach_prepare junk p : reachable p -> reachable (fst (prepare junk p))
  | reach_store p off data : reachable p -> reachable (store p off data)
  | reach_commit n p : reachable p -> reachable (commit n p)
  | reach_commit_eof p : reachable p -> reachable (commit_eof p)
  | reach_parse_header p : reachable p -> reachable (fst (parse_header p))
  | reach_parse_body p ec : reachable p -> reachable (fst (parse_body p ec))
  | reach_parse_body_part p ec :
      reachable p -> reachable (fst (parse_body_part p ec))
  | reach_parse_chunk_ext p ec :
      reachable p -> reachable (fst (parse_chunk_ext p ec))
  | reach_parse_chunk_part p ec :
      reachable p -> reachable (fst (parse_chunk_part p ec))
  | reach_parse_chunk_trailer p ec :
      reachable p -> reachable (fst (parse_chunk_trailer p ec)).

(** The array is as long as [capacity_] says; without an array the
    capacity is 0. *)
Definition array_fits (p : basic_parser) : Prop :=
  match buffer_ p with
  | None => capacity_ p = 0
  | Some b => Z.of_nat (length b) = capacity_ p
  end.

(** The array that an exit of the value loop carries. *)
Definition exit_buf (r : loop_exit) : list Z :=
  match r with
  | end_of_line b _ _ _ => b
  | fail b _ => b
  end.

(** A lookup that takes every name for Connection. *)
Definition connection_only : parser_env :=
  {| parse_start_line := request_line;
     string_to_field := fun _ => field.connection |}.

(** A parser whose first 4096 bytes are all committed: the next
    [prepare] has to grow the array. *)
Definition full_parser : basic_parser :=
  receive zeros (replicate (Z.to_nat 4096) 97) 4096 construct.

(** A list that asks for more at [begin] and breaks off at the first
    [increment], never signalling [end]. *)
Inductive stuck_rule : Set := stuck_rule_tag.

Definition stuck_list : bnf.List stuck_rule :=
  {| bnf.members := unit;
     bnf.begin_ := fun _ start _ => (tt, start, need_more);
     bnf.increment := fun _ _ it _ _ => (tt, it + 1, bad_chunk) |}.



(** The field block of S2 with HTAB for the continuation byte. *)
Definition tab_field : list Z :=
  bytes "X: a"%string ++ crlf ++ [HTAB] ++ bytes "b"%string ++ crlf ++ crlf.

(** A field block whose obs-fold follows a blank behind the content. *)
Definition blank_fold_field : list Z :=
  bytes "X: a "%string ++ crlf ++ bytes " b"%string ++ crlf ++ crlf.

(** * Theorems *)

(** ** Reads and writes *)

Lemma rd_in_range (b : list Z) (i : Z) :
  rd b i <> 0 -> 0 <= i < Z.of_nat (length b).
Proof.
  unfold rd. destruct (Z.ltb_spec i 0) as [Hi | Hi]; [congruence |].
  destruct (b !! Z.to_nat i) eqn:E; simpl; [| congruence].
  intros _. apply lookup_lt_Some in E. lia.
Qed.

Lemma length_wr (b : list Z) (i c : Z) : length (wr b i c) = length b.
Proof. unfold wr. destruct (i <? 0); [done | apply length_insert]. Qed.

Lemma rd_wr_same (b : list Z) (i c : Z) :
  0 <= i < Z.of_nat (length b) -> rd (wr b i c) i = c.
Proof.
  intros Hi. unfold rd, wr.
  destruct (Z.ltb_spec i 0) as [? | _]; [lia |].
  rewrite list_lookup_insert_eq by lia. done.
Qed.

Lemma rd_wr_other (b : list Z) (i j c : Z) :
  i <> j -> rd (wr b i c) j = rd b j.
Proof.
  intros Hij. unfold rd, wr.
  destruct (Z.ltb_spec j 0) as [? | Hj]; [done |].
  destruct (Z.ltb_spec i 0) as [? | Hi]; [done |].
  rewrite list_lookup_insert_ne by lia. done.
Qed.

(** ** The scanner *)

Lemma skip_from_ge (s : char_set) (l : list Z) (it last : Z) :
  it <= skip_from s l it last.
Proof.
  revert it. induction l as [| c l IH]; intros it; simpl; [lia |].
  destruct (it =? last); [lia |].
  destruct (contains s c); [| lia].
  specialize (IH (it + 1)). lia.
Qed.

Lemma skip_ge (s : char_set) (b : list Z) (first last : Z) :
  first <= skip s b first last.
Proof. apply skip_from_ge. Qed.

Lemma skip_from_all (s : char_set) (l : list Z) (it last k : Z) :
  it <= k < skip_from s l it last ->
  contains s (default 0 (l !! Z.to_nat (k - it))) = true.
Proof.
  revert it. induction l as [| c l IH]; intros it; simpl; [lia |].
  destruct (it =? last); [lia |].
  destruct (contains s c) eqn:Hc; [| lia].
  intros Hk. destruct (Z.eq_dec k it) as [-> | Hne].
  - rewrite Z.sub_diag. simpl. done.
  - specialize (IH (it + 1) ltac:(lia)).
    replace (Z.to_nat (k - it)) with (S (Z.to_nat (k - (it + 1)))) by lia.
    simpl. exact IH.
Qed.

Lemma skip_all (s : char_set) (b : list Z) (first last k : Z) :
  0 <= first -> first <= k < skip s b first last ->
  contains s (rd b k) = true.
Proof.
  intros H0 Hk. unfold skip in Hk.
  pose proof (skip_from_all _ _ _ _ _ Hk) as H.
  rewrite lookup_drop in H.
  unfold rd. destruct (Z.ltb_spec k 0) as [? | _]; [lia |].
  replace (Z.to_nat k) with (Z.to_nat first + Z.to_nat (k - first))%nat by lia.
  exact H.
Qed.

Lemma skip_from_le (s : char_set) (l : list Z) (it last : Z) :
  it <= last -> skip_from s l it last <= last.
Proof.
  revert it. induction l as [| c l IH]; intros it Hle; simpl; [lia |].
  destruct (Z.eqb_spec it last); [lia |].
  destruct (contains s c); [| lia].
  apply IH. lia.
Qed.

Lemma skip_le (s : char_set) (b : list Z) (first last : Z) :
  first <= last -> skip s b first last <= last.
Proof. apply skip_from_le. Qed.

(** ** parse_header with nothing committed *)

(** C10.  When no byte has been committed, [parse_header] reports
    [need_more] at once and leaves the parser as it was: state, cursors
    and array are untouched, and neither the array nor the start-line
    parser is consulted (the result is the same for every array and every
    derived parser). *)
Theorem parse_header_nothing_committed `{parser_env} (p : basic_parser) :
  committed_ p = 0 -> parse_header p = (p, need_more).
Proof.
  intros Hc. unfold parse_header. rewrite Hc. reflexivity.
Qed.

Lemma parse_header_nothing_committed_fresh :
  committed_ construct = 0 /\
  parse_header (H := request_parser) construct = (construct, need_more).
Proof.
  split; [reflexivity |].
  apply (parse_header_nothing_committed (H := request_parser) construct).
  reflexivity.
Defined.

(** ** The look-ahead of parse_field *)

(** C5.  A call of [parse_field] with fewer than three bytes between
    [start] and [end] reports [need_more], returns [start], leaves the
    array as it was and yields no field. *)
Theorem parse_field_short_look_ahead `{parser_env} (b : list Z) (start en : Z) :
  en - start < 3 ->
  parse_field b start en =
    {| fr_in := start; fr_ec := need_more; fr_buf := b; fr_kv := None |}.
Proof.
  intros Hlt. unfold parse_field.
  destruct (Z.ltb_spec (en - start) 3) as [_ | ?]; [reflexivity | lia].
Qed.

Lemma parse_field_short_look_ahead_two_bytes :
  2 - 0 < 3 /\
  parse_field (H := request_parser) (bytes "X:"%string) 0 2 =
    {| fr_in := 0; fr_ec := need_more; fr_buf := bytes "X:"%string;
       fr_kv := None |}.
Proof.
  split; [lia |].
  apply (parse_field_short_look_ahead (H := request_parser)). lia.
Defined.

(** ** parse_version *)

Lemma peek_8 (b : list Z) (i : Z) :
  peek b i 8 =
    [rd b i; rd b (i + 1); rd b (i + 2); rd b (i + 3);
     rd b (i + 4); rd b (i + 5); rd b (i + 6); rd b (i + 7)].
Proof. unfold peek. simpl. rewrite Z.add_0_r. reflexivity. Qed.

(** Closes a case of [parse_version_literal] in which a byte differs. *)
Ltac differ :=
  simpl;
  repeat match goal with
    | |- context [?x =? ?y] => destruct (Z.eqb_spec x y); [lia |]; simpl
    end;
  repeat case_bool_decide; simplify_eq; reflexivity.

(** C6.  With fewer than 8 bytes before [last], [parse_version] reports
    [need_more] and moves nothing.  With 8 or more, it succeeds exactly
    on the bytes "HTTP/1.0" (recording version 0) and "HTTP/1.1"
    (recording version 1), stepping over the 8 bytes; every other
    sequence is [bad_version], with the cursor and the recorded version
    left alone. *)
Theorem parse_version_literal (b : list Z) (first last : Z) (ver : option Z) :
  (last - first < 8 ->
     parse_version b first last ver = (first, need_more, ver)) /\
  (8 <= last - first ->
     parse_version b first last ver =
       if bool_decide (peek b first 8 = bytes "HTTP/1.0") then
         (first + 8, success, Some 0)
       else if bool_decide (peek b first 8 = bytes "HTTP/1.1") then
         (first + 8, success, Some 1)
       else (first, bad_version, ver)).
Proof.
  unfold parse_version. split; intros Hlen.
  - destruct (Z.ltb_spec (last - first) 8); [reflexivity | lia].
  - destruct (Z.ltb_spec (last - first) 8) as [? | _]; [lia |].
    rewrite peek_8. unfold http_1_dot, memcmp.
    replace (first + 1 + 1) with (first + 2) by lia.
    replace (first + 2 + 1) with (first + 3) by lia.
    replace (first + 3 + 1) with (first + 4) by lia.
    replace (first + 4 + 1) with (first + 5) by lia.
    replace (first + 5 + 1) with (first + 6) by lia.
    replace (first + 7 + 1) with (first + 8) by lia.
    change (bytes "HTTP/1.0") with [72; 84; 84; 80; 47; 49; 46; 48].
    change (bytes "HTTP/1.1") with [72; 84; 84; 80; 47; 49; 46; 49].
    generalize (rd b first), (rd b (first + 1)), (rd b (first + 2)),
      (rd b (first + 3)), (rd b (first + 4)), (rd b (first + 5)),
      (rd b (first + 6)), (rd b (first + 7)).
    intros c0 c1 c2 c3 c4 c5 c6 c7.
    destruct (Z.eqb_spec c0 72) as [-> | ?]; [| differ].
    destruct (Z.eqb_spec c1 84) as [-> | ?]; [| differ].
    destruct (Z.eqb_spec c2 84) as [-> | ?]; [| differ].
    destruct (Z.eqb_spec c3 80) as [-> | ?]; [| differ].
    destruct (Z.eqb_spec c4 47) as [-> | ?]; [| differ].
    destruct (Z.eqb_spec c5 49) as [-> | ?]; [| differ].
    destruct (Z.eqb_spec c6 46) as [-> | ?]; [| differ].
    simpl.
    destruct (Z.eqb_spec c7 48) as [-> | ?]; [reflexivity |].
    destruct (Z.eqb_spec c7 49) as [-> | ?]; [reflexivity |].
    repeat case_bool_decide; simplify_eq; reflexivity.
Qed.

Lemma parse_version_literal_http_1_1 :
  8 <= 8 - 0 /\
  parse_version (bytes "HTTP/1.1") 0 8 None = (8, success, Some 1) /\
  parse_version (bytes "HTTP/1.") 0 7 None = (0, need_more, None).
Proof.
  split; [lia |]. split.
  - exact (proj2 (parse_version_literal (bytes "HTTP/1.1") 0 8 None)
             ltac:(lia)).
  - exact (proj1 (parse_version_literal (bytes "HTTP/1.") 0 7 None)
             ltac:(lia)).
Defined.

(** ** A line that begins with CR *)

(** C7.  At the top of any turn of the field loop with at least two
    bytes left, a line that begins with CR is decided by the next byte:
    LF ends the header block (the cursor steps over the CRLF, no error),
    anything else is [bad_line_ending] with the cursor left at the CR.
    In [parse_header] the first case moves the state from [fields] to
    [body]. *)
Theorem cr_line_ends_fields `{parser_env} (b : list Z) (it last : Z) :
  2 <= last - it -> rd b it = CR ->
  (forall fuel,
     fields_loop (S fuel) b it last =
       Some (if rd b (it + 1) =? LF then (it + 2, success, b)
             else (it, bad_line_ending, b))) /\
  parse_fields b it last =
    (if rd b (it + 1) =? LF then (it + 2, success, b)
     else (it, bad_line_ending, b)) /\
  (forall p,
     buffer_ p = Some b -> parsed_ p = it -> committed_ p = last ->
     last <> 0 -> state_ p = state.fields ->
     let r := parse_header p in
     buffer_ (fst r) = Some b /\ committed_ (fst r) = last /\
     if rd b (it + 1) =? LF then
       snd r = success /\ state_ (fst r) = state.body /\
       parsed_ (fst r) = wrap (it + 2)
     else
       snd r = bad_line_ending /\ state_ (fst r) = state.fields /\
       parsed_ (fst r) = wrap it).
Proof.
  intros Hlen Hcr.
  assert (Hloop : forall fuel,
     fields_loop (S fuel) b it last =
       Some (if rd b (it + 1) =? LF then (it + 2, success, b)
             else (it, bad_line_ending, b))).
  { intros fuel. simpl.
    destruct (Z.ltb_spec (last - it) 2) as [? | _]; [lia |].
    rewrite Hcr, Z.eqb_refl.
    destruct (rd b (it + 1) =? LF); reflexivity. }
  assert (Hpf : parse_fields b it last =
    (if rd b (it + 1) =? LF then (it + 2, success, b)
     else (it, bad_line_ending, b))).
  { unfold parse_fields. rewrite Hloop. reflexivity. }
  split; [exact Hloop |]. split; [exact Hpf |].
  intros p Hb Hp Hc Hne Hst r. subst r.
  unfold parse_header. rewrite Hc, Hst, Hb, Hp. simpl.
  destruct (Z.eqb_spec last 0) as [? | _]; [contradiction |].
  unfold header_fields. rewrite Hpf.
  destruct (rd b (it + 1) =? LF); simpl; rewrite Hb, Hc; auto.
Qed.

Lemma cr_line_ends_fields_blank_line :
  let r := parse_header (H := request_parser) blank_line_parser in
  state_ blank_line_parser = state.fields /\
  parsed_ blank_line_parser = 16 /\ committed_ blank_line_parser = 18 /\
  snd r = success /\ state_ (fst r) = state.body /\ parsed_ (fst r) = 18.
Proof.
  assert (Hb : buffer_ blank_line_parser
               = Some (default [] (buffer_ blank_line_parser)))
    by (vm_compute; reflexivity).
  assert (Hcr : rd (default [] (buffer_ blank_line_parser)) 16 = CR)
    by (vm_compute; reflexivity).
  assert (Hp16 : parsed_ blank_line_parser = 16) by (vm_compute; reflexivity).
  assert (Hc18 : committed_ blank_line_parser = 18) by (vm_compute; reflexivity).
  assert (Hst : state_ blank_line_parser = state.fields)
    by (vm_compute; reflexivity).
  pose proof (cr_line_ends_fields (H := request_parser)
                (default [] (buffer_ blank_line_parser)) 16 18
                ltac:(lia) Hcr) as (_ & _ & Hp).
  specialize (Hp blank_line_parser Hb Hp16 Hc18 ltac:(lia) Hst).
  cbv zeta in Hp. destruct Hp as (_ & _ & Hp).
  replace (rd (default [] (buffer_ blank_line_parser)) (16 + 1) =? LF)
    with true in Hp by (vm_compute; reflexivity).
  cbv zeta. split; [exact Hst |]. split; [exact Hp16 |].
  split; [exact Hc18 |]. exact Hp.
Defined.

(** ** reset *)

(** [reset()] after the S2 request has been parsed. *)
Lemma reset_keeps_parsed_message :
  let p := fst (parse_header (H := request_parser) fold_parser) in
  state_ (reset p) = state.body /\ parsed_ (reset p) = 28 /\
  committed_ (reset p) = 28 /\ version_ (reset p) = Some 1 /\
  ~ blank (reset p).
Proof.
  cbv zeta. unfold reset.
  assert (Hs : state_ (fst (parse_header (H := request_parser) fold_parser))
               = state.body) by (vm_compute; reflexivity).
  split; [exact Hs |].
  split; [vm_compute; reflexivity |].
  split; [vm_compute; reflexivity |].
  split; [vm_compute; reflexivity |].
  intros Hb. apply (f_equal state_) in Hb.
  change (state_ (fst (parse_header (H := request_parser) fold_parser))
          = state.nothing_yet) in Hb.
  rewrite Hs in Hb. discriminate Hb.
Qed.

(** C3, as the code has it.  [reset()] has an empty body: it changes no
    member, so the parser after [reset()] is the parser before it; it is
    in the freshly constructed condition exactly when it already was. *)
Theorem reset_changes_nothing (p : basic_parser) :
  reset p = p /\ (blank (reset p) <-> blank p).
Proof. split; [reflexivity | reflexivity]. Qed.

(** ** consume and is_valid *)

Section bnf_algorithm.
Import bnf.
Context `{error_category}.


End bnf_algorithm.



(** Under the default of Boost.System, where a code fails when its value
    is not zero, [error::end] fails too and [consume<Element>] returns
    [start] whatever [parse] answered. *)
Remark consume_element_default_category (E : Type) `{!bnf.Element E}
    (b : list Z) (start en : Z) :
  bnf.consume_element (H := is_set) E b start en = start.
Proof.
  unfold bnf.consume_element, bnf.failed.
  destruct (bnf.parse b start en) as [it ec].
  destruct ec; reflexivity.
Qed.

(** ** One turn of the value loop *)

Lemma ws_byte (c : Z) :
  contains ws_set c = true -> c = SP \/ c = HTAB.
Proof.
  unfold ws_set; simpl.
  destruct (Z.eqb_spec c SP); [auto |].
  destruct (Z.eqb_spec c HTAB); [auto | discriminate].
Qed.

Lemma tchar_byte (c : Z) : contains tchar_set c = true -> c <> CR.
Proof. intros Hc ->. vm_compute in Hc. discriminate Hc. Qed.

Lemma fold_or_crlf_continue (b : list Z) (en it : Z) (v0 : option Z)
    (b1 : list Z) (it1 : Z) (v01 : option Z) :
  fold_or_crlf b en it v0 = continue b1 it1 v01 ->
  obs_fold b it /\ b1 = blank_fold b it /\
  it1 = skip ws_set b1 (it + 3) en /\ v01 = v0.
Proof.
  unfold fold_or_crlf, obs_fold.
  destruct (Z.eqb_spec (rd b it) CR) as [Hcr | ?]; [| discriminate].
  destruct (Z.eqb_spec (rd b (it + 1)) LF) as [Hlf | ?]; cbn [negb]; [| discriminate].
  destruct (contains ws_set (rd b (it + 2))) eqn:Hws; cbn [negb]; [| discriminate].
  intros Heq. injection Heq as <- <- <-. auto.
Qed.

Lemma fold_or_crlf_exit (b : list Z) (en it : Z) (v0 : option Z) (r : loop_exit) :
  fold_or_crlf b en it v0 = exit r ->
  r = end_of_line b (it + 2) (default it v0) it \/
  r = fail b bad_line_ending \/ r = fail b bad_field.
Proof.
  unfold fold_or_crlf.
  destruct (rd b it =? CR); [| intros [= <-]; auto].
  destruct (rd b (it + 1) =? LF); cbn [negb]; [| intros [= <-]; auto].
  destruct (contains ws_set (rd b (it + 2))); cbn [negb]; [discriminate |].
  intros [= <-]; auto.
Qed.

(** A turn reads content and whitespace up to some [it2] and then either
    goes through the "obs-fold / CRLF" tail there, or leaves with an
    error, or leaves at the end of a line found at [it2]. *)
Lemma value_step_cases (b : list Z) (en it : Z) (v0 : option Z) :
  exists it2 v02,
    it <= it2 /\
    (0 <= it -> forall j, it <= j < it2 -> plain b j) /\
    ((it2 = it /\ v02 = v0) \/ (it < it2 /\ v02 = Some (default it v0))) /\
    (value_step b en it v0 = fold_or_crlf b en it2 v02 \/
     (exists ec, value_step b en it v0 = exit (fail b ec) /\ field_error ec) \/
     value_step b en it v0 = exit (end_of_line b (it2 + 2) (default it2 v02) it2)).
Proof.
  unfold value_step.
  destruct (it =? en).
  { exists it, v0. repeat split; [lia | intros; lia | auto |].
    right; left. exists need_more. unfold field_error. auto. }
  destruct (contains field_vchar_set (rd b it)) eqn:Hfv.
  2: { exists it, v0. repeat split; [lia | intros; lia | auto | auto]. }
  set (it1 := skip field_vchar_set b (it + 1) en).
  assert (Hge1 : it + 1 <= it1) by apply skip_ge.
  assert (Hp1 : 0 <= it -> forall j, it <= j < it1 -> plain b j).
  { intros H0 j Hj. left. destruct (Z.eq_dec j it) as [-> | ?]; [exact Hfv |].
    apply (skip_all field_vchar_set b (it + 1) en); [lia |].
    fold it1. lia. }
  destruct (it1 =? en).
  { exists it, v0. repeat split; [lia | intros; lia | auto |].
    right; left. exists need_more. unfold field_error. auto. }
  destruct (contains ws_set (rd b it1)) eqn:Hws1.
  2: { exists it1, (Some (default it v0)).
       repeat split; [lia | exact Hp1 | right; split; [lia | done] | auto]. }
  set (it2 := skip ws_set b it1 en).
  assert (Hge2 : it1 <= it2) by apply skip_ge.
  assert (Hp2 : 0 <= it -> forall j, it <= j < it2 -> plain b j).
  { intros H0 j Hj. destruct (Z.lt_ge_cases j it1) as [? | ?].
    - apply Hp1; [exact H0 | lia].
    - right. apply (skip_all ws_set b it1 en); [lia |]. fold it2. lia. }
  exists it2, (Some (default it v0)).
  split; [lia |]. split; [exact Hp2 |]. split; [right; split; [lia | done] |].
  destruct (rd b it2 =? CR); [| auto].
  destruct (rd b (it2 + 1) =? LF); cbn [negb].
  2: { right; left. exists bad_line_ending. unfold field_error. auto. }
  destruct (contains ws_set (rd b (it2 + 2))).
  { right; left. exists bad_value. unfold field_error. auto. }
  right; right. reflexivity.
Qed.

Lemma length_blank_fold (b : list Z) (j : Z) :
  length (blank_fold b j) = length b.
Proof. unfold blank_fold. rewrite !length_wr. reflexivity. Qed.

(** ** The loops end *)

Lemma value_loop_fuel (fuel : nat) (b : list Z) (en it : Z) (v0 : option Z) :
  (0 < fuel)%nat -> Z.of_nat (length b) - Z.max it 0 < Z.of_nat fuel ->
  is_Some (value_loop fuel b en it v0).
Proof.
  revert b it v0. induction fuel as [| fuel IH]; intros b it v0 Hpos Hlen; [lia |].
  simpl.
  destruct (value_step_cases b en it v0)
    as (it2 & v02 & Hle & _ & _ & [Hs | [(ec & Hs & _) | Hs]]);
    rewrite Hs; [| eauto | eauto].
  destruct (fold_or_crlf b en it2 v02) as [r | b1 it1 v01] eqn:Hf; [eauto |].
  apply fold_or_crlf_continue in Hf as ((Hcr & _ & _) & -> & -> & ->).
  assert (Hin : 0 <= it2 < Z.of_nat (length b)).
  { apply rd_in_range. rewrite Hcr. discriminate. }
  pose proof (skip_ge ws_set (blank_fold b it2) (it2 + 3) en) as Hge.
  apply IH; rewrite ?length_blank_fold; lia.
Qed.

Lemma value_loop_enough (b : list Z) (en it : Z) (v0 : option Z) :
  is_Some (value_loop (S (length b)) b en it v0).
Proof. apply value_loop_fuel; lia. Qed.

Lemma value_loop_forward (fuel : nat) (b : list Z) (en it : Z) (v0 : option Z)
    (b' : list Z) (it' v0' v1' : Z) :
  value_loop fuel b en it v0 = Some (end_of_line b' it' v0' v1') ->
  it <= v1' /\ it' = v1' + 2.
Proof.
  revert b it v0. induction fuel as [| fuel IH]; intros b it v0; [discriminate |].
  simpl.
  destruct (value_step_cases b en it v0)
    as (it2 & v02 & Hle & _ & _ & [Hs | [(ec & Hs & _) | Hs]]);
    rewrite Hs; [| discriminate | intros [= <- <- <- <-]; lia].
  destruct (fold_or_crlf b en it2 v02) as [r | b1 it1 v01] eqn:Hf.
  - apply fold_or_crlf_exit in Hf as [-> | [-> | ->]];
      [intros [= <- <- <- <-]; lia | discriminate | discriminate].
  - apply fold_or_crlf_continue in Hf as (_ & -> & -> & ->).
    intros Hl. apply IH in Hl.
    pose proof (skip_ge ws_set (blank_fold b it2) (it2 + 3) en). lia.
Qed.

Lemma value_loop_codes (fuel : nat) (b : list Z) (en it : Z) (v0 : option Z)
    (b' : list Z) (ec : error_code) :
  value_loop fuel b en it v0 = Some (fail b' ec) -> field_error ec.
Proof.
  revert b it v0. induction fuel as [| fuel IH]; intros b it v0; [discriminate |].
  simpl.
  destruct (value_step_cases b en it v0)
    as (it2 & v02 & Hle & _ & _ & [Hs | [(ec' & Hs & Hec) | Hs]]);
    rewrite Hs; [| intros [= <- <-]; exact Hec | discriminate].
  destruct (fold_or_crlf b en it2 v02) as [r | b1 it1 v01] eqn:Hf.
  - apply fold_or_crlf_exit in Hf as [-> | [-> | ->]];
      [discriminate | |]; intros [= <- <-]; unfold field_error; auto.
  - apply IH.
Qed.

(** ** parse_field and parse_fields as a whole *)

Section parser.
Context `{parser_env}.

(** [parse_field] either stops with an error, returning [start] and no
    field, or has run the value loop to an end of line. *)
Lemma parse_field_cases (b : list Z) (start en : Z) :
  (fr_in (parse_field b start en) = start /\
   field_error (fr_ec (parse_field b start en)) /\
   fr_kv (parse_field b start en) = None /\
   (fr_buf (parse_field b start en) = b \/
    exists it0 v0 ec, start <= it0 /\
      value_loop (S (length b)) b (en - 3) it0 v0
        = Some (fail (fr_buf (parse_field b start en)) ec))) \/
  (exists k1 it0 b' it' v0' v1',
     start < k1 /\ k1 < it0 /\
     (0 <= start -> forall j, start <= j < it0 -> rd b j <> CR) /\
     value_loop (S (length b)) b (en - 3) it0 None
       = Some (end_of_line b' it' v0' v1') /\
     parse_field b start en =
       {| fr_in := it'; fr_ec := success; fr_buf := b';
          fr_kv := Some ((start, k1 - start), (v0', v1' - v0')) |}).
Proof.
  unfold parse_field.
  destruct (en - start <? 3).
  { left. unfold field_error. simpl. auto 10. }
  set (k1 := skip tchar_set b start (en - 3)).
  assert (Hk1 : start <= k1) by apply skip_ge.
  destruct (k1 =? en - 3).
  { left. unfold field_error. simpl. auto 10. }
  destruct (Z.eqb_spec (rd b k1) COLON) as [Hcolon | ?]; cbn [negb].
  2: { left. unfold field_error. simpl. auto 10. }
  destruct (Z.eqb_spec k1 start) as [? | Hne].
  { left. unfold field_error. simpl. auto 10. }
  set (it0 := skip ws_set b (k1 + 1) (en - 3)).
  assert (Hit0 : k1 + 1 <= it0) by apply skip_ge.
  assert (Hhead : 0 <= start -> forall j, start <= j < it0 -> rd b j <> CR).
  { intros H0 j Hj.
    destruct (Z.lt_ge_cases j k1) as [Hlt | Hge].
    - apply tchar_byte.
      apply (skip_all tchar_set b start (en - 3)); [exact H0 |].
      fold k1. lia.
    - destruct (Z.eq_dec j k1) as [-> | ?].
      + rewrite Hcolon. discriminate.
      + assert (Hw : contains ws_set (rd b j) = true).
        { apply (skip_all ws_set b (k1 + 1) (en - 3)); [lia |].
          fold it0. lia. }
        apply ws_byte in Hw. unfold SP, HTAB, CR in *. lia. }
  destruct (value_loop_enough b (en - 3) it0 None) as [r Hr].
  rewrite Hr. destruct r as [b' it' v0' v1' | b' ec].
  - right. exists k1, it0, b', it', v0', v1'.
    split; [lia |]. split; [lia |]. split; [exact Hhead |].
    split; [exact Hr |].
    cbn [fst snd].
    destruct (string_to_field (sub b' start (k1 - start))); reflexivity.
  - left. simpl. split; [reflexivity |].
    split; [exact (value_loop_codes _ _ _ _ _ _ _ Hr) |].
    split; [reflexivity |].
    right. exists it0, None, ec. split; [lia | exact Hr].
Qed.

Lemma parse_field_codes (b : list Z) (start en : Z) :
  fr_ec (parse_field b start en) = success \/
  field_error (fr_ec (parse_field b start en)).
Proof.
  destruct (parse_field_cases b start en)
    as [(_ & Hec & _) | (k1 & it0 & b' & it' & v0' & v1' & _ & _ & _ & _ & ->)];
    auto.
Qed.

Lemma parse_field_forward (b : list Z) (start en : Z) :
  is_set (fr_ec (parse_field b start en)) = false ->
  start + 4 <= fr_in (parse_field b start en).
Proof.
  destruct (parse_field_cases b start en)
    as [(_ & Hec & _) | (k1 & it0 & b' & it' & v0' & v1' & ? & ? & _ & Hl & ->)].
  - destruct Hec as [-> | [-> | [-> | ->]]]; discriminate.
  - intros _. simpl. apply value_loop_forward in Hl. lia.
Qed.

Lemma fields_loop_fuel (fuel : nat) (b : list Z) (it last : Z) :
  (0 < fuel)%nat -> last - it < Z.of_nat fuel ->
  is_Some (fields_loop fuel b it last).
Proof.
  revert b it. induction fuel as [| fuel IH]; intros b it Hpos Hlen; [lia |].
  simpl.
  destruct (Z.ltb_spec (last - it) 2); [eauto |].
  destruct (rd b it =? CR).
  { destruct (negb (rd b (it + 1) =? LF)); eauto. }
  destruct (is_set (fr_ec (parse_field b it last))) eqn:Hs; [eauto |].
  apply parse_field_forward in Hs. apply IH; lia.
Qed.

Lemma parse_fields_loop (b : list Z) (first last : Z) :
  fields_loop (S (Z.to_nat (last - first))) b first last
    = Some (parse_fields b first last).
Proof.
  unfold parse_fields.
  destruct (fields_loop_fuel (S (Z.to_nat (last - first))) b first last)
    as [r Hr]; [lia | lia |].
  rewrite Hr. reflexivity.
Qed.

Lemma fields_loop_codes (fuel : nat) (b : list Z) (it last : Z)
    (it' : Z) (ec : error_code) (b' : list Z) :
  fields_loop fuel b it last = Some (it', ec, b') ->
  ec = success \/ field_error ec.
Proof.
  revert b it. induction fuel as [| fuel IH]; intros b it; [discriminate |].
  simpl.
  destruct (last - it <? 2).
  { intros [= _ <- _]. unfold field_error. auto. }
  destruct (rd b it =? CR).
  { destruct (negb (rd b (it + 1) =? LF)); intros [= _ <- _];
      unfold field_error; auto. }
  destruct (is_set (fr_ec (parse_field b it last))) eqn:Hs.
  - intros [= _ <- _]. apply parse_field_codes.
  - apply IH.
Qed.

Lemma parse_fields_codes (b : list Z) (first last : Z) :
  snd (fst (parse_fields b first last)) = success \/
  field_error (snd (fst (parse_fields b first last))).
Proof.
  pose proof (parse_fields_loop b first last) as Hl.
  destruct (parse_fields b first last) as [[it' ec] b'].
  exact (fields_loop_codes _ _ _ _ _ _ _ Hl).
Qed.

(** ** Errors and the parser state *)

Lemma parse_header_state (p : basic_parser) :
  state_ (fst (parse_header p)) = state_ p \/
  state_ (fst (parse_header p)) = state.start_line \/
  state_ (fst (parse_header p)) = state.fields \/
  (state_ (fst (parse_header p)) = state.body /\
   snd (parse_header p) = success).
Proof.
  unfold parse_header.
  destruct (committed_ p =? 0); [auto |].
  unfold header_fields.
  destruct (state_ p); simpl; auto;
    repeat match goal with
      | |- context [is_set ?e] => destruct (is_set e) eqn:?
      | |- context [parse_fields ?b ?f ?l] =>
          destruct (parse_fields b f l) as [[? ?] ?]
      end; simpl; auto.
  all: destruct e; try discriminate; auto.
Qed.

Lemma reachable_not_failed (p : basic_parser) :
  reachable p -> state_ p <> state.failed.
Proof.
  induction 1 as [| | junk p _ IH | | | | p _ IH | p ec _ IH | p ec _ IH | | |];
    try assumption; try discriminate.
  - unfold prepare. simpl. destruct (buffer_ p); simpl; [| exact IH].
    destruct (capacity_ p <=? committed_ p); exact IH.
  - destruct (parse_header_state p) as [-> | [-> | [-> | [-> _]]]];
      [exact IH | discriminate..].
  - unfold parse_body. destruct (state_ p) eqn:E; simpl; rewrite ?E; congruence.
  - unfold parse_body_part.
    destruct (state_ p) eqn:E; simpl; rewrite ?E; congruence.
Qed.

(** C2, as the code has it.  No operation moves the parser to [failed]:
    a parser brought about from construction by any sequence of public
    operations is never in that state.  When [parse_header] reports an
    error, a syntax error as well as [need_more], the state stays where
    the parse stood: unchanged, or [start_line], or [fields].  The body
    and chunk operations report no error of their own afterwards: they
    hand back the [ec] they were given. *)
Theorem errors_keep_stage (p : basic_parser) :
  reachable p ->
  state_ p <> state.failed /\
  state_ (fst (parse_header p)) <> state.failed /\
  (is_set (snd (parse_header p)) = true ->
     state_ (fst (parse_header p)) = state_ p \/
     state_ (fst (parse_header p)) = state.start_line \/
     state_ (fst (parse_header p)) = state.fields) /\
  (forall q ec,
     snd (parse_body q ec) = ec /\ snd (parse_body_part q ec) = ec /\
     snd (parse_chunk_ext q ec) = ec /\ snd (parse_chunk_part q ec) = ec /\
     snd (parse_chunk_trailer q ec) = ec).
Proof.
  intros Hr. split; [exact (reachable_not_failed p Hr) |].
  split; [exact (reachable_not_failed _ (reach_parse_header p Hr)) |].
  split.
  - intros He.
    destruct (parse_header_state p) as [? | [? | [? | [_ Hs]]]]; auto.
    rewrite Hs in He. discriminate He.
  - intros q ec. unfold parse_body, parse_body_part.
    destruct (state_ q); repeat split; reflexivity.
Qed.

(** ** The header limit *)

(** C1, as the code has it.  [parse_header] does not consult
    [header_limit_]: its outcome is the same for every value of the
    limit, field parsing never reports [header_limit], and [parse_header]
    reports it only if the start-line parser of the derived class did. *)
Theorem header_limit_not_consulted (p : basic_parser) (n : Z) :
  parse_header (set_header_limit p n)
    = (set_header_limit (fst (parse_header p)) n, snd (parse_header p)) /\
  (forall b first last,
     snd (fst (parse_fields b first last)) <> header_limit) /\
  (snd (parse_header p) <> header_limit \/
   sl_ec (parse_start_line (default [] (buffer_ p)) (parsed_ p)
            (committed_ p) (version_ p)) = header_limit).
Proof.
  assert (Hpf : forall b first last,
     snd (fst (parse_fields b first last)) <> header_limit).
  { intros b first last.
    destruct (parse_fields_codes b first last) as [-> | [-> | [-> | [-> | ->]]]];
      discriminate. }
  split; [| split; [exact Hpf |]].
  - unfold parse_header, set_header_limit; simpl.
    destruct (committed_ p =? 0); [reflexivity |].
    unfold header_fields.
    destruct (state_ p); simpl;
      repeat match goal with
        | |- context [is_set ?e] => destruct (is_set e) eqn:?
        | |- context [parse_fields ?b ?f ?l] =>
            destruct (parse_fields b f l) as [[? ?] ?]
        end; reflexivity.
  - unfold parse_header.
    destruct (committed_ p =? 0); [left; discriminate |].
    unfold header_fields.
    destruct (state_ p); simpl; try (left; discriminate);
      repeat match goal with
        | |- context [is_set (sl_ec ?e)] => destruct (is_set (sl_ec e)) eqn:?
        | |- context [parse_fields ?b ?f ?l] =>
            pose proof (Hpf b f l);
            destruct (parse_fields b f l) as [[? ?] ?]
        end; simpl in *;
      repeat match goal with
        | |- context [is_set ?e] => destruct (is_set e) eqn:?
        end; simpl; auto;
      match goal with
      | |- ?x <> header_limit \/ _ =>
          destruct (decide (x = header_limit)); [right | left]; assumption
      end.
Qed.

End parser.

(** After [bad_field] the state is [fields], and [parse_body] then
    returns without an error. *)
Lemma syntax_error_keeps_stage :
  let r := parse_header (H := request_parser) bad_parser in
  snd r = bad_field /\ state_ (fst r) = state.fields /\
  state_ (fst r) <> state.failed /\
  snd (parse_body (fst r) success) = success /\
  state_ (fst (parse_body (fst r) success)) <> state.failed.
Proof.
  cbv zeta.
  assert (He : snd (parse_header (H := request_parser) bad_parser) = bad_field)
    by (vm_compute; reflexivity).
  assert (Hs : state_ (fst (parse_header (H := request_parser) bad_parser))
               = state.fields) by (vm_compute; reflexivity).
  revert He Hs.
  generalize (parse_header (H := request_parser) bad_parser).
  intros [p' ec]. cbn [fst snd]. intros -> Hs.
  unfold parse_body. rewrite Hs. cbn [fst snd]. rewrite Hs.
  repeat split; discriminate.
Qed.

(** A request of 8223 bytes under the limit of 8192. *)
Lemma long_header_accepted :
  let r := parse_header (H := request_parser) long_parser in
  header_limit_ long_parser = 8192 /\ committed_ long_parser = 8223 /\
  snd r = success /\ state_ (fst r) = state.body /\
  parsed_ (fst r) = 8223 /\ snd r <> header_limit.
Proof.
  cbv zeta.
  assert (Hs : snd (parse_header (H := request_parser) long_parser) = success)
    by (vm_compute; reflexivity).
  split; [vm_compute; reflexivity |]. split; [vm_compute; reflexivity |].
  split; [exact Hs |]. split; [vm_compute; reflexivity |].
  split; [vm_compute; reflexivity |]. rewrite Hs. discriminate.
Qed.

Lemma errors_keep_stage_bad_field :
  reachable (H := request_parser) bad_parser /\
  state_ (fst (parse_header (H := request_parser) bad_parser)) <> state.failed.
Proof.
  assert (Hr : reachable (H := request_parser) bad_parser).
  { unfold bad_parser, receive.
    destruct (prepare zeros construct) as [p' [off room]] eqn:Hp.
    apply reach_commit, reach_store.
    change p' with (fst (p', (off, room))). rewrite <- Hp.
    apply reach_prepare, reach_construct. }
  split; [exact Hr |].
  exact (proj1 (proj2 (errors_keep_stage (H := request_parser) bad_parser Hr))).
Defined.

(** ** Obs-fold normalisation *)

Lemma plain_byte (b : list Z) (j : Z) :
  plain b j -> rd b j <> CR /\ rd b j <> LF.
Proof.
  unfold plain, field_vchar_set, CR, LF; simpl. intros [Hf | Hw].
  - apply andb_true_iff in Hf as [H1 H2].
    apply Z.leb_le in H1. lia.
  - apply ws_byte in Hw. unfold SP, HTAB in Hw. lia.
Qed.

Lemma obs_fold_in_range (b : list Z) (j : Z) :
  obs_fold b j -> 0 <= j /\ j + 2 < Z.of_nat (length b).
Proof.
  intros (Hcr & _ & Hws).
  assert (H0 : 0 <= j < Z.of_nat (length b)).
  { apply rd_in_range. rewrite Hcr. discriminate. }
  assert (H2 : 0 <= j + 2 < Z.of_nat (length b)).
  { apply rd_in_range. apply ws_byte in Hws. unfold SP, HTAB in Hws. lia. }
  lia.
Qed.

Lemma rd_blank_fold_other (b : list Z) (j i : Z) :
  i < j \/ j + 2 < i -> rd (blank_fold b j) i = rd b i.
Proof.
  intros Hi. unfold blank_fold.
  rewrite !rd_wr_other by lia. reflexivity.
Qed.

Lemma rd_blank_fold_in (b : list Z) (j i : Z) :
  obs_fold b j -> j <= i <= j + 2 -> rd (blank_fold b j) i = SP.
Proof.
  intros Hf Hi. apply obs_fold_in_range in Hf. unfold blank_fold.
  destruct (Z.eq_dec i (j + 2)) as [-> | ?].
  { apply rd_wr_same. rewrite !length_wr. lia. }
  rewrite rd_wr_other by lia.
  destruct (Z.eq_dec i (j + 1)) as [-> | ?].
  { apply rd_wr_same. rewrite !length_wr. lia. }
  rewrite rd_wr_other by lia.
  replace i with j by lia. apply rd_wr_same. lia.
Qed.

Lemma obs_fold_blank_fold (b : list Z) (c j : Z) :
  c + 3 <= j -> obs_fold (blank_fold b c) j <-> obs_fold b j.
Proof.
  intros Hj. unfold obs_fold.
  rewrite !rd_blank_fold_other by lia. reflexivity.
Qed.

Lemma loop_post_end_of_line (b : list Z) (it it2 : Z) (v0 v02 : option Z) :
  it <= it2 ->
  (forall j, it <= j < it2 -> plain b j) ->
  (it2 = it /\ v02 = v0) \/ (it < it2 /\ v02 = Some (default it v0)) ->
  loop_post b it v0 b (default it2 v02) it2.
Proof.
  intros Hle Hplain Hv. unfold loop_post.
  split; [reflexivity |]. split; [exact Hle |].
  split.
  { destruct Hv as [[-> ->] | [Hlt ->]]; destruct v0; simpl; lia. }
  split; [reflexivity |].
  split; [intros i Hi; contradiction |].
  intros j Hj. destruct (plain_byte b j (Hplain j Hj)) as [Hcr Hlf].
  split; [exact Hcr |]. split; [exact Hlf |].
  intros (Hc & _). contradiction.
Qed.

Lemma value_loop_post (fuel : nat) (b : list Z) (en it : Z) (v0 : option Z)
    (b' : list Z) (it' v0' v1' : Z) :
  0 <= it ->
  value_loop fuel b en it v0 = Some (end_of_line b' it' v0' v1') ->
  loop_post b it v0 b' v0' v1'.
Proof.
  revert b it v0.
  induction fuel as [| fuel IH]; intros b it v0 H0; [discriminate |].
  simpl.
  destruct (value_step_cases b en it v0)
    as (it2 & v02 & Hle & Hplain & Hv & [Hs | [(ec & Hs & _) | Hs]]);
    rewrite Hs; [| discriminate |].
  2: { intros [= <- <- <- <-].
       apply loop_post_end_of_line; [exact Hle | exact (Hplain H0) | exact Hv]. }
  specialize (Hplain H0).
  destruct (fold_or_crlf b en it2 v02) as [r | b1 it1 v01] eqn:Hf.
  { apply fold_or_crlf_exit in Hf as [-> | [-> | ->]];
      [| discriminate | discriminate].
    intros [= <- <- <- <-].
    apply loop_post_end_of_line; [exact Hle | exact Hplain | exact Hv]. }
  apply fold_or_crlf_continue in Hf as (Hfold & -> & -> & ->).
  set (it1 := skip ws_set (blank_fold b it2) (it2 + 3) en).
  assert (Hge : it2 + 3 <= it1) by apply skip_ge.
  assert (Hws : forall j, it2 + 3 <= j < it1 -> contains ws_set (rd b j) = true).
  { intros j Hj.
    rewrite <- (rd_blank_fold_other b it2 j) by lia.
    apply (skip_all ws_set (blank_fold b it2) (it2 + 3) en); [lia | exact Hj]. }
  intros Hl. apply IH in Hl; [| lia].
  destruct Hl as (Hlen & Hv1 & Hv0 & Hbefore & Hdiff & Hspan).
  unfold loop_post.
  split; [rewrite Hlen; apply length_blank_fold |].
  split; [lia |].
  split.
  { destruct Hv as [[_ ->] | [Hlt ->]]; destruct v0; simpl in *; lia. }
  split.
  { intros i Hi. rewrite Hbefore by lia. apply rd_blank_fold_other. lia. }
  split.
  { intros i Hi. destruct (Z.eq_dec (rd b' i) (rd (blank_fold b it2) i)) as [Heq | Hne].
    - assert (Hin : it2 <= i <= it2 + 2).
      { destruct (Z.lt_ge_cases i it2); [| destruct (Z.lt_ge_cases (it2 + 2) i)];
          try lia; exfalso; apply Hi; rewrite Heq;
          apply rd_blank_fold_other; lia. }
      split; [rewrite Heq; apply rd_blank_fold_in; assumption |].
      exists it2. auto.
    - destruct (Hdiff i Hne) as (Hsp & j & Hj & Hij & Hfj).
      split; [exact Hsp |]. exists j.
      split; [lia |]. split; [exact Hij |].
      apply (obs_fold_blank_fold b it2 j); [lia | exact Hfj]. }
  intros j Hj.
  destruct (Z.lt_ge_cases j it1) as [Hlt | Hge1].
  - rewrite Hbefore by exact Hlt.
    destruct (Z.lt_ge_cases j it2) as [Hlt2 | Hge2].
    + rewrite rd_blank_fold_other by lia.
      destruct (plain_byte b j (Hplain j ltac:(lia))) as [Hcr Hlf].
      split; [exact Hcr |]. split; [exact Hlf |].
      intros (Hc & _). contradiction.
    + destruct (Z.lt_ge_cases (it2 + 2) j) as [Hgt | Hin].
      * rewrite rd_blank_fold_other by lia.
        destruct (plain_byte b j (or_intror (Hws j ltac:(lia)))) as [Hcr Hlf].
        split; [exact Hcr |]. split; [exact Hlf |].
        intros (Hc & _). contradiction.
      * rewrite rd_blank_fold_in by (assumption || lia).
        split; [discriminate |]. split; [discriminate |].
        intros (Hc & _).
        assert (j = it2) as ->.
        { destruct Hfold as (_ & Hlf & Hw).
          apply ws_byte in Hw. unfold CR, LF, SP, HTAB in *.
          destruct (Z.eq_dec j (it2 + 1)) as [-> | ?]; [lia |].
          destruct (Z.eq_dec j (it2 + 2)) as [-> | ?]; [lia |]. lia. }
        unfold blanked. rewrite !Hbefore by lia.
        rewrite !rd_blank_fold_in by (assumption || lia). auto.
  - destruct (Hspan j ltac:(lia)) as (Hcr & Hlf & Hbl).
    split; [exact Hcr |]. split; [exact Hlf |].
    intros Hfj. apply Hbl.
    apply (obs_fold_blank_fold b it2 j); [lia | exact Hfj].
Qed.

Section normalisation.
Context `{parser_env}.

Lemma parse_field_s2 :
  parse_field fold_field 0 12 =
    {| fr_in := 10; fr_ec := success;
       fr_buf := bytes "X: a   b" ++ crlf ++ crlf;
       fr_kv := Some ((0, 1), (3, 5)) |}.
Proof.
  destruct H as [psl stf]. unfold parse_field. vm_compute.
  destruct (stf [88]); reflexivity.
Qed.

End normalisation.

(** A fold is written into the array before the field is known to be
    complete.  When S2 arrives in two rounds, the first call blanks the
    fold and reports [need_more]; the second call starts the field again
    over the blanked bytes, and the branch that follows whitespace behind
    field content finds no CR there: [bad_field]. *)
Remark fold_survives_need_more :
  snd split_first = need_more /\ parsed_ (fst split_first) = 16 /\
  sub (default [] (buffer_ (fst split_first))) 16 10
    = bytes "X: a   b" ++ crlf /\
  snd split_second = bad_field.
Proof.
  split; [vm_compute; reflexivity |]. split; [vm_compute; reflexivity |].
  split; vm_compute; reflexivity.
Qed.

(** An obs-fold that follows whitespace after field content is not
    folded: the branch marked "illegal obs-fold" reports [bad_value] and
    the array is left as it was. *)
Remark fold_after_whitespace_rejected :
  let b := bytes "X: a " ++ crlf ++ bytes " b" ++ crlf ++ crlf in
  obs_fold b 5 /\
  parse_field (H := request_parser) b 0 13 =
    {| fr_in := 0; fr_ec := bad_value; fr_buf := b; fr_kv := None |}.
Proof. cbv zeta. split; [vm_compute; auto | vm_compute; reflexivity]. Qed.

(** ** The cursor invariant *)

Lemma wrap_small (x : Z) : 0 <= x < 2 ^ 64 -> wrap x = x.
Proof. intros Hx. unfold wrap. apply Z.mod_small. exact Hx. Qed.

(** X1.  [prepare] keeps the invariant and hands out at least one byte. *)
Lemma prepare_cursor_inv (junk : Z -> Z) (p : basic_parser) :
  cursor_inv p -> (buffer_ p = None -> capacity_ p = 0) ->
  capacity_ p + 4096 < 2 ^ 64 ->
  cursor_inv (fst (prepare junk p)) /\ 1 <= snd (snd (prepare junk p)).
Proof.
  intros (Hp & Hpc & Hcc) Hnull Hcap. unfold prepare, cursor_inv.
  destruct (buffer_ p) as [old |]; cbn [fst snd].
  - destruct (Z.leb_spec (capacity_ p) (committed_ p)); cbn.
    + rewrite !wrap_small by lia. lia.
    + rewrite wrap_small by lia. lia.
  - specialize (Hnull eq_refl). cbn.
    rewrite wrap_small by lia. lia.
Qed.

(** X4.  [commit(n)] keeps the invariant under its two assertions. *)
Lemma commit_cursor_inv (n : Z) (p : basic_parser) :
  cursor_inv p -> capacity_ p < 2 ^ 64 -> commit_pre n p ->
  cursor_inv (commit n p).
Proof.
  intros (Hp & Hpc & Hcc) Hcap (Hn & Hroom). unfold commit, cursor_inv; cbn.
  rewrite wrap_small in Hroom by lia.
  rewrite wrap_small by lia. lia.
Qed.

(** The body and chunk operations, [commit_eof] and [reset] do not touch
    the cursors. *)
Lemma body_operations_cursor_inv (p : basic_parser) (ec : error_code) :
  cursor_inv p ->
  cursor_inv (fst (parse_body p ec)) /\
  cursor_inv (fst (parse_body_part p ec)) /\
  cursor_inv (fst (parse_chunk_ext p ec)) /\
  cursor_inv (fst (parse_chunk_part p ec)) /\
  cursor_inv (fst (parse_chunk_trailer p ec)) /\
  cursor_inv (commit_eof p) /\ cursor_inv (reset p).
Proof.
  intros Hinv. unfold parse_body, parse_body_part.
  destruct (state_ p); cbn; auto 10.
Qed.

(** C8 at the failing input.  The caller copies the 28 bytes of S2 into
    the prepared region and commits 24 of them, up to the "b" behind the
    obs-fold.  [parse_field] folds at offset 20 and steps to 23, past its
    own [end] of 21; no test [in == end] holds from there on, so it reads
    on through the uncommitted CRLF to 26.  [parse_header] stores 26 in
    [parsed_] while [committed_] is 24. *)
Theorem parse_header_passes_committed :
  let p := short_parser in
  let r := parse_header (H := request_parser) p in
  cursor_inv p /\ commit_pre 24 (fst (prepare zeros construct)) /\
  committed_ p = 24 /\ snd r = need_more /\
  parsed_ (fst r) = 26 /\ committed_ (fst r) = 24 /\
  ~ cursor_inv (fst r).
Proof.
  cbv zeta.
  assert (Hp : parsed_ (fst (parse_header (H := request_parser) short_parser))
               = 26) by (vm_compute; reflexivity).
  assert (Hc : committed_ (fst (parse_header (H := request_parser) short_parser))
               = 24) by (vm_compute; reflexivity).
  split; [unfold cursor_inv; vm_compute; intuition discriminate |].
  split; [unfold commit_pre; vm_compute; intuition discriminate |].
  split; [vm_compute; reflexivity |]. split; [vm_compute; reflexivity |].
  split; [exact Hp |]. split; [exact Hc |].
  unfold cursor_inv. rewrite Hp, Hc. lia.
Qed.

(** The same with nothing stored behind the committed bytes by the
    caller: what [new char[4096]] left there decides. *)
Remark parse_header_passes_committed_leftovers :
  let r := parse_header (H := request_parser) leftover_parser in
  committed_ leftover_parser = 24 /\
  parsed_ (fst r) = 26 /\ committed_ (fst r) = 24.
Proof.
  cbv zeta. split; [vm_compute; reflexivity |].
  split; vm_compute; reflexivity.
Qed.

(** * Further properties of the code *)

(** ** prepare and commit *)

Lemma length_new_array (junk : Z -> Z) (n : Z) :
  length (new_array junk n) = Z.to_nat n.
Proof. unfold new_array. rewrite length_fmap. apply length_seqZ. Qed.

(** X2.  [prepare] keeps the array as long as [capacity_] says, changes no
    member but the array and the capacity, returns the offset
    [committed_] with all the room behind it, and carries every committed
    byte over into the array it leaves. *)
Theorem prepare_keeps_committed_bytes (junk : Z -> Z) (p : basic_parser) :
  cursor_inv p -> array_fits p -> capacity_ p + 4096 < 2 ^ 64 ->
  let p' := fst (prepare junk p) in
  array_fits p' /\
  set_buffer p' (buffer_ p) (capacity_ p) = p /\
  snd (prepare junk p) = (committed_ p, capacity_ p' - committed_ p) /\
  (forall b b', buffer_ p = Some b -> buffer_ p' = Some b' ->
     forall i, 0 <= i < committed_ p -> rd b' i = rd b i).
Proof.
  intros (Hp & Hpc & Hcc) Hfit Hcap. cbv zeta.
  unfold prepare, array_fits in *.
  destruct p as [buf cap com par st lim sk f ver]; cbn in *.
  destruct buf as [old |]; cbn.
  - destruct (Z.leb_spec cap com) as [Hle | Hgt]; cbn.
    + assert (com = cap) by lia. subst com.
      rewrite !wrap_small by lia.
      rewrite length_app, length_take, length_drop, length_new_array.
      split; [lia |]. split; [reflexivity |].
      split; [f_equal; lia |].
      intros b b' [= <-] [= <-] i Hi. unfold rd.
      destruct (Z.ltb_spec i 0); [lia |].
      rewrite lookup_app_l by (rewrite length_take; lia).
      rewrite lookup_take_lt by lia. reflexivity.
    + rewrite wrap_small by lia.
      split; [exact Hfit |]. split; [reflexivity |].
      split; [reflexivity |].
      intros b b' [= <-] [= <-] i Hi. reflexivity.
  - subst cap. rewrite wrap_small by lia.
    rewrite length_new_array.
    split; [reflexivity |]. split; [reflexivity |].
    split; [reflexivity |]. intros b b' Hb. discriminate Hb.
Qed.

Lemma full_parser_fits :
  cursor_inv full_parser /\ array_fits full_parser /\
  capacity_ full_parser + 4096 < 2 ^ 64.
Proof.
  unfold cursor_inv, array_fits.
  assert (Hb : exists b, buffer_ full_parser = Some b /\
                         Z.of_nat (length b) = 4096).
  { eexists. split; [vm_compute; reflexivity | vm_compute; reflexivity]. }
  destruct Hb as (b & -> & Hlen).
  change (parsed_ full_parser) with 0.
  change (committed_ full_parser) with (wrap (0 + 4096)).
  change (capacity_ full_parser) with 4096.
  rewrite wrap_small by lia. lia.
Qed.

Lemma prepare_keeps_committed_bytes_grown :
  array_fits (fst (prepare zeros full_parser)) /\
  snd (prepare zeros full_parser) = (4096, 4096).
Proof.
  destruct full_parser_fits as (Hinv & Hfit & Hcap).
  destruct (prepare_keeps_committed_bytes zeros full_parser Hinv Hfit Hcap)
    as (Hfit' & _ & Hregion & _).
  split; [exact Hfit' |].
  rewrite Hregion. vm_compute. reflexivity.
Defined.

(** X3.  A second [prepare] with no [commit] in between changes nothing and
    returns the same region: the array grows at most once per round. *)
Theorem prepare_twice (junk junk' : Z -> Z) (p : basic_parser) :
  cursor_inv p -> array_fits p -> capacity_ p + 4096 < 2 ^ 64 ->
  prepare junk' (fst (prepare junk p)) = prepare junk p.
Proof.
  intros (Hp & Hpc & Hcc) Hfit Hcap.
  unfold prepare, array_fits in *.
  destruct p as [buf cap com par st lim sk f ver]; cbn in *.
  destruct buf as [old |]; cbn.
  - destruct (Z.leb_spec cap com) as [Hle | Hgt]; cbn.
    + rewrite !wrap_small by lia.
      destruct (Z.leb_spec (cap + 4096) com); [lia | reflexivity].
    + destruct (Z.leb_spec cap com); [lia | reflexivity].
  - subst cap.
    destruct (Z.leb_spec 4096 com); [lia | reflexivity].
Qed.

Lemma prepare_twice_grown :
  prepare zeros (fst (prepare zeros full_parser)) = prepare zeros full_parser.
Proof.
  destruct full_parser_fits as (Hinv & Hfit & Hcap).
  exact (prepare_twice zeros zeros full_parser Hinv Hfit Hcap).
Defined.

Lemma prepare_cursor_inv_grown :
  cursor_inv (fst (prepare zeros full_parser)) /\
  1 <= snd (snd (prepare zeros full_parser)).
Proof.
  destruct full_parser_fits as (Hinv & Hfit & Hcap).
  apply (prepare_cursor_inv zeros full_parser Hinv); [| exact Hcap].
  intros Hnone. unfold array_fits in Hfit. rewrite Hnone in Hfit. exact Hfit.
Defined.

(** X5.  On a parser that satisfies the cursor invariant, with the array
    as long as [capacity_] and the capacity below 2^64, [commit(n)] under
    its two assertions moves [committed_] by exactly [n] and touches
    nothing else; while room is left, it takes [n] bytes from the front
    of the region that [prepare] reports; and a commit that follows
    amounts, with it, to one commit of the sum. *)
Theorem commit_takes_from_region (junk : Z -> Z) (n : Z) (p : basic_parser) :
  cursor_inv p -> array_fits p -> capacity_ p < 2 ^ 64 ->
  commit_pre n p ->
  committed_ (commit n p) = committed_ p + n /\
  set_committed (commit n p) (committed_ p) = p /\
  (committed_ (commit n p) < capacity_ p ->
   snd (prepare junk (commit n p))
     = (committed_ p + n, snd (snd (prepare junk p)) - n)) /\
  (forall m, commit m (commit n p) = commit (n + m) p).
Proof.
  intros (Hp & Hpc & Hcc) Hfit Hcap (Hn & Hroom).
  unfold commit, commit_pre, prepare, array_fits in *.
  destruct p as [buf cap com par st lim sk f ver]; cbn in *.
  rewrite wrap_small in Hroom by lia.
  split; [apply wrap_small; lia |]. split; [reflexivity |]. split.
  - rewrite (wrap_small (com + n)) by lia.
    intros Hlt. destruct buf as [old |]; [| lia]. cbn.
    destruct (Z.leb_spec cap (com + n)); [lia |].
    destruct (Z.leb_spec cap com); [lia |]. cbn.
    rewrite !wrap_small by lia. f_equal. lia.
  - intros m. unfold set_committed; cbn. f_equal. unfold wrap.
    rewrite Zplus_mod_idemp_l. f_equal. lia.
Qed.

Lemma commit_takes_from_region_two_rounds :
  let p := fst (prepare zeros construct) in
  committed_ (commit 4096 p) = 4096 /\
  commit 10 (commit 24 p) = commit 34 p /\
  snd (prepare zeros (commit 24 p)) = (24, 4072).
Proof.
  cbv zeta.
  assert (Hinv : cursor_inv (fst (prepare zeros construct)))
    by (unfold cursor_inv; vm_compute; intuition discriminate).
  assert (Hfit : array_fits (fst (prepare zeros construct)))
    by (vm_compute; reflexivity).
  assert (Hcap : capacity_ (fst (prepare zeros construct)) < 2 ^ 64)
    by (vm_compute; reflexivity).
  pose proof (commit_takes_from_region zeros 4096
                (fst (prepare zeros construct)) Hinv Hfit Hcap
                ltac:(unfold commit_pre; vm_compute; intuition discriminate))
    as (Hfull & _).
  pose proof (commit_takes_from_region zeros 24
                (fst (prepare zeros construct)) Hinv Hfit Hcap
                ltac:(unfold commit_pre; vm_compute; intuition discriminate))
    as (_ & _ & Hregion & Hsum).
  split; [exact Hfull |]. split; [exact (Hsum 10) |].
  rewrite Hregion by (vm_compute; reflexivity).
  vm_compute. reflexivity.
Defined.

Lemma commit_cursor_inv_first_round :
  cursor_inv (commit 24 (fst (prepare zeros construct))).
Proof.
  apply commit_cursor_inv.
  - unfold cursor_inv; vm_compute; intuition discriminate.
  - vm_compute; reflexivity.
  - unfold commit_pre; vm_compute; intuition discriminate.
Defined.

(** ** What the value loop leaves behind *)

Lemma value_step_end_of_line (b : list Z) (en it : Z) (v0 : option Z)
    (b' : list Z) (it' v0' v1' : Z) :
  value_step b en it v0 = exit (end_of_line b' it' v0' v1') ->
  b' = b /\ it' = v1' + 2 /\
  rd b v1' = CR /\ rd b (v1' + 1) = LF /\
  contains ws_set (rd b (v1' + 2)) = false.
Proof.
  assert (Htail : forall i w,
    fold_or_crlf b en i w = exit (end_of_line b' it' v0' v1') ->
    b' = b /\ it' = v1' + 2 /\
    rd b v1' = CR /\ rd b (v1' + 1) = LF /\
    contains ws_set (rd b (v1' + 2)) = false).
  { intros i w. unfold fold_or_crlf.
    destruct (Z.eqb_spec (rd b i) CR) as [Hcr | ?]; [| discriminate].
    destruct (Z.eqb_spec (rd b (i + 1)) LF) as [Hlf | ?]; cbn [negb];
      [| discriminate].
    destruct (contains ws_set (rd b (i + 2))) eqn:Hws; cbn [negb];
      [discriminate |].
    intros [= <- <- <- <-]. auto. }
  unfold value_step.
  destruct (it =? en); [discriminate |].
  destruct (contains field_vchar_set (rd b it)); [| apply Htail].
  destruct (skip field_vchar_set b (it + 1) en =? en); [discriminate |].
  destruct (contains ws_set (rd b (skip field_vchar_set b (it + 1) en)));
    [| apply Htail].
  set (it2 := skip ws_set b (skip field_vchar_set b (it + 1) en) en).
  destruct (Z.eqb_spec (rd b it2) CR) as [Hcr | ?]; [| apply Htail].
  destruct (Z.eqb_spec (rd b (it2 + 1)) LF) as [Hlf | ?]; cbn [negb];
    [| discriminate].
  destruct (contains ws_set (rd b (it2 + 2))) eqn:Hws; [discriminate |].
  intros [= <- <- <- <-]. auto.
Qed.

Lemma value_loop_line_end (fuel : nat) (b : list Z) (en it : Z) (v0 : option Z)
    (b' : list Z) (it' v0' v1' : Z) :
  value_loop fuel b en it v0 = Some (end_of_line b' it' v0' v1') ->
  rd b' v1' = CR /\ rd b' (v1' + 1) = LF /\
  contains ws_set (rd b' (v1' + 2)) = false.
Proof.
  revert b it v0. induction fuel as [| fuel IH]; intros b it v0; [discriminate |].
  simpl. destruct (value_step b en it v0) as [r | b1 it1 v01] eqn:Hs.
  - intros [= ->]. apply value_step_end_of_line in Hs as (-> & _ & H). exact H.
  - apply IH.
Qed.

(** Whatever way the loop is left, the array has its length and differs
    from the input only where an obs-fold of the input was blanked; on an
    end of line these places lie before the CR that ends the line. *)
Lemma value_loop_writes (fuel : nat) (b : list Z) (en it : Z) (v0 : option Z)
    (r : loop_exit) :
  value_loop fuel b en it v0 = Some r ->
  length (exit_buf r) = length b /\
  (forall i, rd (exit_buf r) i <> rd b i ->
     rd (exit_buf r) i = SP /\
     (exists j, it <= j /\ j <= i <= j + 2 /\ obs_fold b j) /\
     match r with
     | end_of_line _ _ _ v1' => i < v1'
     | fail _ _ => True
     end).
Proof.
  revert b it v0. induction fuel as [| fuel IH]; intros b it v0; [discriminate |].
  simpl.
  destruct (value_step_cases b en it v0)
    as (it2 & v02 & Hle & _ & _ & [Hs | [(ec & Hs & _) | Hs]]); rewrite Hs.
  2, 3: intros [= <-]; cbn; split; [reflexivity | intros i Hi; contradiction].
  destruct (fold_or_crlf b en it2 v02) as [r' | b1 it1 v01] eqn:Hf.
  { intros [= <-].
    apply fold_or_crlf_exit in Hf as [-> | [-> | ->]]; cbn;
      (split; [reflexivity | intros i Hi; contradiction]). }
  apply fold_or_crlf_continue in Hf as (Hfold & -> & -> & ->).
  set (it1 := skip ws_set (blank_fold b it2) (it2 + 3) en).
  assert (Hge : it2 + 3 <= it1) by apply skip_ge.
  intros Hl. pose proof (IH _ _ _ Hl) as (Hlen & Hdiff).
  split; [rewrite Hlen; apply length_blank_fold |].
  intros i Hi.
  destruct (Z.eq_dec (rd (exit_buf r) i) (rd (blank_fold b it2) i))
    as [Heq | Hne].
  - assert (Hin : it2 <= i <= it2 + 2).
    { destruct (Z.lt_ge_cases i it2); [| destruct (Z.lt_ge_cases (it2 + 2) i)];
        try lia; exfalso; apply Hi; rewrite Heq;
        apply rd_blank_fold_other; lia. }
    split; [rewrite Heq; apply rd_blank_fold_in; assumption |].
    split; [exists it2; auto |].
    destruct r as [b' it' v0' v1' | b' ec]; [| exact I].
    apply value_loop_forward in Hl. lia.
  - destruct (Hdiff i Hne) as (Hsp & (j & Hj & Hij & Hfj) & Hend).
    split; [exact Hsp |]. split; [| exact Hend].
    exists j. split; [lia |]. split; [exact Hij |].
    apply (obs_fold_blank_fold b it2 j); [lia | exact Hfj].
Qed.

(** ** Fields that parse_field accepts *)

Section fields.
Context `{parser_env}.

Lemma parse_field_accepts (b : list Z) (start en : Z) (k v : span) :
  fr_kv (parse_field b start en) = Some (k, v) ->
  let k1 := skip tchar_set b start (en - 3) in
  let it0 := skip ws_set b (k1 + 1) (en - 3) in
  start < k1 /\ rd b k1 = COLON /\ k = (start, k1 - start) /\
  exists b' it' v0' v1',
    value_loop (S (length b)) b (en - 3) it0 None
      = Some (end_of_line b' it' v0' v1') /\
    v = (v0', v1' - v0') /\
    fr_in (parse_field b start en) = it' /\
    fr_buf (parse_field b start en) = b' /\
    fr_ec (parse_field b start en) = success.
Proof.
  cbv zeta. unfold parse_field.
  destruct (en - start <? 3); [discriminate |].
  pose proof (skip_ge tchar_set b start (en - 3)) as Hk1.
  destruct (skip tchar_set b start (en - 3) =? en - 3); [discriminate |].
  destruct (Z.eqb_spec (rd b (skip tchar_set b start (en - 3))) COLON)
    as [Hcolon | ?]; cbn [negb]; [| discriminate].
  destruct (Z.eqb_spec (skip tchar_set b start (en - 3)) start) as [? | Hne];
    [discriminate |].
  destruct (value_loop _ _ _ _ _) as [[b' it' v0' v1' | b' ec] |] eqn:Hl;
    cbn [fr_kv]; [| discriminate | discriminate].
  intros [= <- <-].
  split; [lia |]. split; [exact Hcolon |]. split; [reflexivity |].
  exists b', it', v0', v1'. split; [reflexivity |].
  cbn [fst snd fr_in fr_buf fr_ec].
  destruct (string_to_field _); auto.
Qed.

(** X6.  A field that [parse_field] accepts has this shape.  The name starts
    at [start], is at least one byte long, consists of token characters
    and is left as it was; the byte behind it is the colon; the value
    lies behind the colon; the returned pointer stands two bytes behind
    the end of the value, and these two bytes are CR LF, followed by a
    byte that is neither SP nor HTAB. *)
Theorem accepted_field_shape (b : list Z) (start en : Z) (k v : span) :
  0 <= start ->
  fr_kv (parse_field b start en) = Some (k, v) ->
  let r := parse_field b start en in
  fr_ec r = success /\
  fst k = start /\ 1 <= snd k /\
  (forall j, start <= j < start + snd k ->
     contains tchar_set (rd b j) = true /\ rd (fr_buf r) j = rd b j) /\
  rd b (start + snd k) = COLON /\
  start + snd k < fst v /\ 0 <= snd v /\
  fr_in r = fst v + snd v + 2 /\
  rd (fr_buf r) (fr_in r - 2) = CR /\
  rd (fr_buf r) (fr_in r - 1) = LF /\
  contains ws_set (rd (fr_buf r) (fr_in r)) = false.
Proof.
  intros H0 Hkv r. subst r.
  apply parse_field_accepts in Hkv. cbv zeta in Hkv.
  set (k1 := skip tchar_set b start (en - 3)) in *.
  set (it0 := skip ws_set b (k1 + 1) (en - 3)) in *.
  destruct Hkv as (Hk1 & Hcolon & -> & b' & it' & v0' & v1' & Hl & -> &
                   -> & -> & ->).
  assert (Hit0 : k1 + 1 <= it0) by apply skip_ge.
  pose proof (value_loop_forward _ _ _ _ _ _ _ _ _ Hl) as (_ & ->).
  pose proof (value_loop_line_end _ _ _ _ _ _ _ _ _ Hl) as (Hcr & Hlf & Hws).
  apply value_loop_post in Hl; [| lia].
  destruct Hl as (_ & _ & Hv0 & Hbefore & _ & _).
  cbn [fst snd].
  split; [reflexivity |]. split; [reflexivity |]. split; [lia |].
  split.
  { intros j Hj. split.
    - apply (skip_all tchar_set b start (en - 3)); [exact H0 |].
      fold k1. lia.
    - apply Hbefore. lia. }
  split; [replace (start + (k1 - start)) with k1 by lia; exact Hcolon |].
  split; [lia |]. split; [lia |]. split; [lia |].
  replace (v1' + 2 - 2) with v1' by lia.
  replace (v1' + 2 - 1) with (v1' + 1) by lia. auto.
Qed.

(** X7.  [parse_field] either accepts a field, moving on by at least four
    bytes with no error, or reports one of its four codes, returns
    [start] and yields no field. *)
Theorem parse_field_all_or_nothing (b : list Z) (start en : Z) :
  let r := parse_field b start en in
  (fr_ec r = success /\ is_Some (fr_kv r) /\ start + 4 <= fr_in r) \/
  (field_error (fr_ec r) /\ fr_kv r = None /\ fr_in r = start).
Proof.
  cbv zeta.
  destruct (parse_field_cases b start en)
    as [(Hin & Hec & Hkv & _) |
        (k1 & it0 & b' & it' & v0' & v1' & ? & ? & _ & Hl & Hr)].
  - right. auto.
  - left. rewrite Hr. cbn.
    apply value_loop_forward in Hl. split; [reflexivity |].
    split; [eauto | lia].
Qed.

Lemma parse_field_writes (b : list Z) (start en : Z) :
  let r := parse_field b start en in
  length (fr_buf r) = length b /\
  (forall i, rd (fr_buf r) i <> rd b i ->
     rd (fr_buf r) i = SP /\
     (exists j, start <= j /\ j <= i <= j + 2 /\ obs_fold b j) /\
     (is_set (fr_ec r) = false -> i < fr_in r)).
Proof.
  cbv zeta.
  destruct (parse_field_cases b start en)
    as [(_ & Hec & _ & [Hb | (it0 & v0 & ec & Hit0 & Hl)]) |
        (k1 & it0 & b' & it' & v0' & v1' & ? & ? & _ & Hl & Hr)].
  - rewrite Hb. split; [reflexivity | intros i Hi; contradiction].
  - apply value_loop_writes in Hl. cbn [exit_buf] in Hl.
    destruct Hl as (Hlen & Hdiff). split; [exact Hlen |].
    intros i Hi. destruct (Hdiff i Hi) as (Hsp & (j & Hj & Hij & Hf) & _).
    split; [exact Hsp |]. split; [exists j; split; [lia | auto] |].
    intros Hok. destruct Hec as [E | [E | [E | E]]]; rewrite E in Hok;
      discriminate Hok.
  - rewrite Hr. cbn [fr_buf fr_ec fr_in].
    pose proof (value_loop_forward _ _ _ _ _ _ _ _ _ Hl) as (_ & ->).
    apply value_loop_writes in Hl. cbn [exit_buf] in Hl.
    destruct Hl as (Hlen & Hdiff). split; [exact Hlen |].
    intros i Hi. destruct (Hdiff i Hi) as (Hsp & (j & Hj & Hij & Hf) & Hend).
    split; [exact Hsp |]. split; [exists j; split; [lia | auto] |].
    intros _. lia.
Qed.

Lemma fields_loop_writes (fuel : nat) (b : list Z) (it last : Z)
    (it' : Z) (ec : error_code) (b' : list Z) :
  fields_loop fuel b it last = Some (it', ec, b') ->
  it <= it' /\ length b' = length b /\
  (forall i, rd b' i <> rd b i ->
     rd b' i = SP /\ exists j, it <= j /\ j <= i <= j + 2 /\ obs_fold b j).
Proof.
  revert b it. induction fuel as [| fuel IH]; intros b it; [discriminate |].
  simpl.
  destruct (last - it <? 2).
  { intros [= <- _ <-]. split; [lia |]. split; [reflexivity |].
    intros i Hi; contradiction. }
  destruct (rd b it =? CR).
  { destruct (negb (rd b (it + 1) =? LF)); intros [= <- _ <-];
      (split; [lia |]; split; [reflexivity |]; intros i Hi; contradiction). }
  pose proof (parse_field_writes b it last) as (Hlen1 & Hdiff1).
  destruct (is_set (fr_ec (parse_field b it last))) eqn:Hs.
  - intros [= <- _ <-]. split; [lia |]. split; [exact Hlen1 |].
    intros i Hi. destruct (Hdiff1 i Hi) as (Hsp & Hj & _). auto.
  - pose proof (parse_field_forward b it last Hs) as Hfwd.
    intros Hl. apply IH in Hl as (Hle & Hlen & Hdiff).
    split; [lia |]. split; [congruence |].
    intros i Hi.
    destruct (Z.eq_dec (rd b' i) (rd (fr_buf (parse_field b it last)) i))
      as [Heq | Hne].
    + rewrite Heq in Hi |- *.
      destruct (Hdiff1 i Hi) as (Hsp & Hj & _). auto.
    + destruct (Hdiff i Hne) as (Hsp & j & Hj & Hij & Hcr & Hlf & Hws).
      split; [exact Hsp |]. exists j. split; [lia |]. split; [exact Hij |].
      assert (Hsame : forall x, fr_in (parse_field b it last) <= x ->
                rd (fr_buf (parse_field b it last)) x = rd b x).
      { intros x Hx.
        destruct (Z.eq_dec (rd (fr_buf (parse_field b it last)) x) (rd b x))
          as [E | E]; [exact E |].
        destruct (Hdiff1 x E) as (_ & _ & Hlt).
        specialize (Hlt ltac:(first [exact Hs | reflexivity])). lia. }
      unfold obs_fold. rewrite <- !Hsame by lia. auto.
Qed.

Lemma parse_fields_frame (b : list Z) (first last : Z) :
  first <= fst (fst (parse_fields b first last)) /\
  length (snd (parse_fields b first last)) = length b /\
  (forall i, rd (snd (parse_fields b first last)) i <> rd b i ->
     rd (snd (parse_fields b first last)) i = SP /\
     exists j, first <= j /\ j <= i <= j + 2 /\ obs_fold b j).
Proof.
  pose proof (parse_fields_loop b first last) as Hl.
  destruct (parse_fields b first last) as [[it' ec] b'].
  exact (fields_loop_writes _ _ _ _ _ _ _ Hl).
Qed.

(** X8.  [parse_fields] keeps the length of the array and never writes in
    front of [first]; whatever it reports, a byte that differs from the
    input is an SP inside an obs-fold of the input.  It never moves the
    cursor back. *)
Theorem parse_fields_writes (b : list Z) (first last : Z) :
  let r := parse_fields b first last in
  first <= fst (fst r) /\
  length (snd r) = length b /\
  (forall i, rd (snd r) i <> rd b i ->
     first <= i /\ rd (snd r) i = SP /\
     exists j, first <= j /\ j <= i <= j + 2 /\ obs_fold b j).
Proof.
  cbv zeta. destruct (parse_fields_frame b first last) as (Hle & Hlen & Hdiff).
  split; [exact Hle |]. split; [exact Hlen |].
  intros i Hi. destruct (Hdiff i Hi) as (Hsp & j & Hj & Hij & Hf).
  split; [lia |]. split; [exact Hsp |]. exists j. auto.
Qed.

Lemma fields_loop_success (fuel : nat) (b : list Z) (it last : Z)
    (it' : Z) (b' : list Z) :
  fields_loop fuel b it last = Some (it', success, b') ->
  it + 2 <= it' /\ it' <= last /\
  rd b' (it' - 2) = CR /\ rd b' (it' - 1) = LF.
Proof.
  revert b it. induction fuel as [| fuel IH]; intros b it; [discriminate |].
  simpl.
  destruct (Z.ltb_spec (last - it) 2); [discriminate |].
  destruct (Z.eqb_spec (rd b it) CR) as [Hcr | _].
  { destruct (Z.eqb_spec (rd b (it + 1)) LF) as [Hlf | _]; cbn [negb];
      [| discriminate].
    intros [= <- <-].
    replace (it + 2 - 2) with it by lia.
    replace (it + 2 - 1) with (it + 1) by lia.
    split; [lia |]. split; [lia | auto]. }
  destruct (is_set (fr_ec (parse_field b it last))) eqn:Hs.
  - intros [= _ Hec _]. rewrite Hec in Hs. discriminate Hs.
  - pose proof (parse_field_forward b it last Hs) as Hfwd.
    intros Hl. apply IH in Hl. lia.
Qed.

Lemma parse_fields_blank_line (b : list Z) (first last : Z) :
  snd (fst (parse_fields b first last)) = success ->
  first + 2 <= fst (fst (parse_fields b first last)) /\
  fst (fst (parse_fields b first last)) <= last /\
  rd (snd (parse_fields b first last))
     (fst (fst (parse_fields b first last)) - 2) = CR /\
  rd (snd (parse_fields b first last))
     (fst (fst (parse_fields b first last)) - 1) = LF.
Proof.
  pose proof (parse_fields_loop b first last) as Hl.
  destruct (parse_fields b first last) as [[it' ec] b']. cbn [fst snd].
  intros ->. exact (fields_loop_success _ _ _ _ _ _ Hl).
Qed.

(** X9.  When [parse_fields] reports no error, the cursor has moved on by at
    least two bytes, has not passed [last], and the two bytes in front of
    it are the CR LF of the blank line. *)
Theorem parse_fields_ends_at_blank_line (b : list Z) (first last : Z) :
  snd (fst (parse_fields b first last)) = success ->
  let r := parse_fields b first last in
  first + 2 <= fst (fst r) /\ fst (fst r) <= last /\
  rd (snd r) (fst (fst r) - 2) = CR /\ rd (snd r) (fst (fst r) - 1) = LF.
Proof. intros Hok. cbv zeta. exact (parse_fields_blank_line b first last Hok). Qed.

End fields.

(** ** Which obs-folds are blanked *)

Lemma value_step_bad_value (b : list Z) (en it : Z) (v0 : option Z)
    (b' : list Z) :
  0 <= it ->
  value_step b en it v0 = exit (fail b' bad_value) ->
  b' = b /\
  exists j, it < j /\ obs_fold b j /\ contains ws_set (rd b (j - 1)) = true.
Proof.
  intros H0.
  assert (Htail : forall i w,
    fold_or_crlf b en i w = exit (fail b' bad_value) -> False).
  { intros i w Hf.
    apply fold_or_crlf_exit in Hf as [E | [E | E]]; discriminate E. }
  unfold value_step.
  destruct (it =? en); [discriminate |].
  destruct (contains field_vchar_set (rd b it));
    [| intros Hf; destruct (Htail _ _ Hf)].
  set (it1 := skip field_vchar_set b (it + 1) en).
  assert (Hge1 : it + 1 <= it1) by apply skip_ge.
  destruct (it1 =? en); [discriminate |].
  destruct (contains ws_set (rd b it1)) eqn:Hws1;
    [| intros Hf; destruct (Htail _ _ Hf)].
  set (it2 := skip ws_set b it1 en).
  assert (Hge2 : it1 <= it2) by apply skip_ge.
  destruct (Z.eqb_spec (rd b it2) CR) as [Hcr | ?];
    [| intros Hf; destruct (Htail _ _ Hf)].
  destruct (Z.eqb_spec (rd b (it2 + 1)) LF) as [Hlf | ?]; cbn [negb];
    [| discriminate].
  destruct (contains ws_set (rd b (it2 + 2))) eqn:Hws2; [| discriminate].
  intros [= <-]. split; [reflexivity |].
  assert (Hne : it1 <> it2).
  { intros E. rewrite <- E in Hcr. rewrite Hcr in Hws1.
    vm_compute in Hws1. discriminate Hws1. }
  exists it2. split; [lia |]. split; [unfold obs_fold; auto |].
  apply (skip_all ws_set b it1 en); [lia |]. fold it2. lia.
Qed.

Lemma value_loop_bad_value (fuel : nat) (b : list Z) (en it : Z)
    (v0 : option Z) (b' : list Z) :
  0 <= it ->
  value_loop fuel b en it v0 = Some (fail b' bad_value) ->
  exists j, it < j /\ obs_fold b' j /\ contains ws_set (rd b' (j - 1)) = true.
Proof.
  revert b it v0. induction fuel as [| fuel IH]; intros b it v0 H0;
    [discriminate |].
  simpl. destruct (value_step b en it v0) as [r | b1 it1 v01] eqn:Hs.
  - intros [= ->]. apply value_step_bad_value in Hs as (-> & Hj); assumption.
  - destruct (value_step_cases b en it v0)
      as (it2 & v02 & Hle & _ & _ & [Hs' | [(ec & Hs' & _) | Hs']]);
      rewrite Hs' in Hs; [| discriminate Hs | discriminate Hs].
    apply fold_or_crlf_continue in Hs as (_ & -> & -> & ->).
    pose proof (skip_ge ws_set (blank_fold b it2) (it2 + 3) en) as Hge.
    intros Hl. apply IH in Hl; [| lia].
    destruct Hl as (j & Hj & Hf). exists j. split; [lia | exact Hf].
Qed.

Section fold_rule.
Context `{parser_env}.

Lemma parse_field_bad_value (b : list Z) (start en : Z) :
  fr_ec (parse_field b start en) = bad_value ->
  fr_kv (parse_field b start en) = None /\
  exists it0, start < it0 /\
    value_loop (S (length b)) b (en - 3) it0 None
      = Some (fail (fr_buf (parse_field b start en)) bad_value).
Proof.
  unfold parse_field.
  destruct (en - start <? 3); [discriminate |].
  pose proof (skip_ge tchar_set b start (en - 3)) as Hk1.
  destruct (skip tchar_set b start (en - 3) =? en - 3); [discriminate |].
  destruct (negb _); [discriminate |].
  destruct (Z.eqb_spec (skip tchar_set b start (en - 3)) start) as [? | Hne];
    [discriminate |].
  pose proof (skip_ge ws_set b (skip tchar_set b start (en - 3) + 1) (en - 3))
    as Hit0.
  destruct (value_loop _ _ _ _ _) as [[b' it' v0' v1' | b' ec] |] eqn:Hl;
    cbn [fr_ec fr_kv fr_buf fst snd].
  - destruct (string_to_field _); discriminate.
  - intros ->. split; [reflexivity |].
    eexists. split; [| exact Hl]. lia.
  - discriminate.
Qed.

(** C4, as the code has it.  In a field that [parse_field] accepts, every
    obs-fold of the input (CR LF and then SP or HTAB) that starts between
    [start] and the returned pointer has become three SP bytes: the line
    never ends at a CR LF that SP or HTAB follows.  The array keeps its
    length, the value span holds no CR and no LF, and every byte that
    differs from the input is such an SP, lying in an obs-fold of the
    input.  Not every obs-fold is folded: when [parse_field] reports
    [bad_value] it yields no field, and the array it leaves still holds
    an obs-fold, one that follows SP or HTAB; a turn of the value loop
    that reads field content, then whitespace, and finds an obs-fold
    behind it ends in [bad_value].  For the field block of S2
    committed whole, "X: a" CRLF " b" CRLF CRLF, the name is "X" and the
    value is "a   b", with three spaces. *)
Theorem obs_fold_blanked :
  (forall (b : list Z) (start en : Z) (k v : span),
     0 <= start ->
     fr_kv (parse_field b start en) = Some (k, v) ->
     let r := parse_field b start en in
     fr_ec r = success /\
     length (fr_buf r) = length b /\
     (forall j, start <= j < fr_in r -> obs_fold b j -> blanked (fr_buf r) j) /\
     (forall j, fst v <= j < fst v + snd v ->
        rd (fr_buf r) j <> CR /\ rd (fr_buf r) j <> LF) /\
     (forall i, rd (fr_buf r) i <> rd b i ->
        rd (fr_buf r) i = SP /\
        exists j, start <= j /\ j <= i <= j + 2 /\ obs_fold b j)) /\
  (forall (b : list Z) (start en : Z),
     0 <= start ->
     fr_ec (parse_field b start en) = bad_value ->
     let r := parse_field b start en in
     fr_kv r = None /\ fr_in r = start /\
     exists j, start < j /\ obs_fold (fr_buf r) j /\
       contains ws_set (rd (fr_buf r) (j - 1)) = true) /\
  (forall (b : list Z) (en it : Z) (v0 : option Z),
     it <> en -> contains field_vchar_set (rd b it) = true ->
     let it1 := skip field_vchar_set b (it + 1) en in
     it1 <> en -> contains ws_set (rd b it1) = true ->
     obs_fold b (skip ws_set b it1 en) ->
     value_step b en it v0 = exit (fail b bad_value)) /\
  (let r := parse_field fold_field 0 12 in
   fr_ec r = success /\ fr_in r = 10 /\
   fr_buf r = bytes "X: a   b" ++ crlf ++ crlf /\
   exists k v, fr_kv r = Some (k, v) /\
     sub (fr_buf r) (fst k) (snd k) = bytes "X" /\
     sub (fr_buf r) (fst v) (snd v) = bytes "a   b").
Proof.
  split; [| split; [| split]].
  - intros b start en k v H0 Hkv r. subst r.
    destruct (parse_field_cases b start en)
      as [(_ & _ & Hnone & _) |
          (k1 & it0 & b' & it' & v0' & v1' & Hk1 & Hit0 & Hhead & Hl & Hr)].
    { rewrite Hnone in Hkv. discriminate Hkv. }
    rewrite Hr in *. cbn [fr_kv fr_buf fr_ec fr_in] in *.
    injection Hkv as <- <-. cbn [fst snd].
    pose proof (value_loop_forward _ _ _ _ _ _ _ _ _ Hl) as (_ & ->).
    pose proof (value_loop_line_end _ _ _ _ _ _ _ _ _ Hl) as (Hcr & Hlf & Hws).
    pose proof (value_loop_writes _ _ _ _ _ _ Hl) as (_ & Hw).
    cbn [exit_buf] in Hw.
    assert (Hsame : forall x, v1' <= x -> rd b x = rd b' x).
    { intros x Hx. destruct (Z.eq_dec (rd b' x) (rd b x)) as [E | E];
        [symmetry; exact E |].
      destruct (Hw x E) as (_ & _ & Hlt). lia. }
    apply value_loop_post in Hl; [| lia].
    destruct Hl as (Hlen & Hv1 & Hv0 & _ & Hdiff & Hspan).
    split; [reflexivity |]. split; [exact Hlen |]. split; [| split].
    + intros j Hj Hf. destruct (Z.lt_ge_cases j it0) as [Hlt | Hge].
      { destruct Hf as (Hc & _). exfalso. apply (Hhead H0 j); [lia | exact Hc]. }
      destruct (Z.lt_ge_cases j v1') as [Hlt | Hge'].
      { apply Hspan; [lia | exact Hf]. }
      exfalso. destruct Hf as (Hc & _ & Hw2).
      destruct (Z.eq_dec j v1') as [-> | Hne].
      * rewrite Hsame in Hw2 by lia. rewrite Hws in Hw2. discriminate Hw2.
      * assert (j = v1' + 1) as -> by lia.
        rewrite Hsame in Hc by lia. rewrite Hlf in Hc. discriminate Hc.
    + intros j Hj. destruct (Hspan j ltac:(lia)) as (Hc & Hl' & _). auto.
    + intros i Hi. destruct (Hdiff i Hi) as (Hsp & j & Hj & Hij & Hf).
      split; [exact Hsp |]. exists j. split; [lia | auto].
  - intros b start en H0 Hbad r. subst r.
    destruct (parse_field_bad_value b start en Hbad) as (Hkv & it0 & Hit0 & Hl).
    split; [exact Hkv |]. split.
    + destruct (parse_field_cases b start en)
        as [(Hin & _) | (k1 & it1 & b' & it' & v0' & v1' & _ & _ & _ & _ & Hr)];
        [exact Hin |].
      rewrite Hr in Hkv. discriminate Hkv.
    + apply value_loop_bad_value in Hl; [| lia].
      destruct Hl as (j & Hj & Hf). exists j. split; [lia | exact Hf].
  - intros b en it v0 Hne Hfv it1 Hne1 Hws1 (Hcr & Hlf & Hws2).
    unfold value_step. subst it1.
    destruct (Z.eqb_spec it en); [contradiction |].
    rewrite Hfv.
    destruct (Z.eqb_spec (skip field_vchar_set b (it + 1) en) en);
      [contradiction |].
    rewrite Hws1, Hcr, Hlf, Hws2. reflexivity.
  - cbv zeta. rewrite parse_field_s2. cbn [fr_ec fr_in fr_buf fr_kv].
    split; [reflexivity |]. split; [reflexivity |]. split; [reflexivity |].
    exists (0, 1), (3, 5). split; [reflexivity |].
    split; vm_compute; reflexivity.
Qed.

End fold_rule.

Lemma obs_fold_blanked_tab :
  obs_fold tab_field 4 /\
  blanked (fr_buf (parse_field (H := request_parser) tab_field 0 12)) 4 /\
  obs_fold (fr_buf (parse_field (H := request_parser) blank_fold_field 0 13)) 5.
Proof.
  assert (Hf : obs_fold tab_field 4) by (vm_compute; auto).
  split; [exact Hf |].
  assert (Hkv : fr_kv (parse_field (H := request_parser) tab_field 0 12)
                = Some ((0, 1), (3, 5))) by (vm_compute; reflexivity).
  assert (Hbad : fr_ec (parse_field (H := request_parser) blank_fold_field 0 13)
                 = bad_value) by (vm_compute; reflexivity).
  destruct (obs_fold_blanked (H := request_parser)) as (Hacc & Hrej & _).
  split.
  - destruct (Hacc tab_field 0 12 (0, 1) (3, 5) ltac:(lia) Hkv)
      as (_ & _ & Hfold & _).
    apply (Hfold 4); [| exact Hf].
    replace (fr_in (parse_field (H := request_parser) tab_field 0 12))
      with 10 by (vm_compute; reflexivity).
    lia.
  - destruct (Hrej blank_fold_field 0 13 ltac:(lia) Hbad)
      as (_ & _ & j & Hj & Hfj & Hws).
    assert (j = 5) as ->; [| exact Hfj].
    destruct Hfj as (Hcr & _).
    assert (Hrange : 0 <= j < 13).
    { split; [lia |].
      pose proof (rd_in_range _ j ltac:(rewrite Hcr; discriminate)) as Hr.
      replace (length (fr_buf (parse_field (H := request_parser)
                                 blank_fold_field 0 13))) with 13%nat in Hr
        by (vm_compute; reflexivity).
      lia. }
    revert Hcr.
    replace (fr_buf (parse_field (H := request_parser) blank_fold_field 0 13))
      with blank_fold_field by (vm_compute; reflexivity).
    assert (Hj' : j = 1 \/ j = 2 \/ j = 3 \/ j = 4 \/ j = 5 \/ j = 6 \/ j = 7 \/
                  j = 8 \/ j = 9 \/ j = 10 \/ j = 11 \/ j = 12) by lia.
    destruct Hj' as [-> | [-> | [-> | [-> | [-> | [-> | [-> | [-> | [-> |
                    [-> | [-> | ->]]]]]]]]]]];
      vm_compute; intros Hcr; try discriminate Hcr; try reflexivity.
    all: revert Hws; vm_compute; intros Hws; discriminate Hws.
Defined.

(** ** parse_header as a whole *)

Section header.
Context `{parser_env}.

Lemma wrap_wrap (x : Z) : wrap (wrap x) = wrap x.
Proof. unfold wrap. apply Z.mod_mod. lia. Qed.

(** The members that [parse_header] copies through [finish:]. *)
Lemma finish_members (p : basic_parser) (b : list Z) (first : Z)
    (ver : option Z) (st : state.t) (ec : error_code) :
  let p' := fst (finish p b first ver st ec) in
  committed_ p' = committed_ p /\ capacity_ p' = capacity_ p /\
  header_limit_ p' = header_limit_ p /\ skip_ p' = skip_ p /\
  f_ p' = f_ p /\ (buffer_ p' = None <-> buffer_ p = None).
Proof.
  cbn. repeat split; try reflexivity; destruct (buffer_ p); cbn; congruence.
Qed.

(** X12.  [parse_header] changes neither [committed_] nor [capacity_] nor the
    limit, and makes no array where there was none.  Entered in state
    [fields] it also leaves [version_], the length of the array and every
    byte in front of [parsed_] as they were. *)
Theorem parse_header_keeps_members (p : basic_parser) :
  let p' := fst (parse_header p) in
  committed_ p' = committed_ p /\ capacity_ p' = capacity_ p /\
  header_limit_ p' = header_limit_ p /\ skip_ p' = skip_ p /\
  f_ p' = f_ p /\ (buffer_ p' = None <-> buffer_ p = None) /\
  (state_ p = state.fields ->
   version_ p' = version_ p /\
   forall b b', buffer_ p = Some b -> buffer_ p' = Some b' ->
     length b' = length b /\
     forall i, i < parsed_ p -> rd b' i = rd b i).
Proof.
  cbv zeta. unfold parse_header.
  destruct (committed_ p =? 0).
  { cbn [fst]. do 5 (split; [reflexivity |]). split; [tauto |].
    intros _. split; [reflexivity |].
    intros b b' Hb Hb'. rewrite Hb in Hb'. injection Hb' as <-.
    split; reflexivity. }
  unfold header_fields.
  destruct (state_ p) eqn:Hst.
  3: { pose proof (parse_fields_frame (default [] (buffer_ p)) (parsed_ p)
                     (committed_ p)) as Hw.
       destruct (parse_fields _ _ _) as [[first' ec] b1]. cbn [fst snd] in Hw.
       destruct Hw as (_ & Hlen & Hdiff).
       assert (Hframe : forall b b',
         buffer_ p = Some b -> (fun _ => b1) <$> buffer_ p = Some b' ->
         length b' = length b /\
         forall i, i < parsed_ p -> rd b' i = rd b i).
       { intros b b' Hb. rewrite Hb in *. cbn in *. intros [= <-].
         split; [exact Hlen |]. intros i Hi.
         destruct (Z.eq_dec (rd b1 i) (rd b i)) as [E | E]; [exact E |].
         destruct (Hdiff i E) as (_ & j & ? & ? & _). lia. }
       destruct (is_set ec);
         (split; [reflexivity |]; split; [reflexivity |];
          split; [reflexivity |]; split; [reflexivity |];
          split; [reflexivity |];
          split; [cbn; destruct (buffer_ p); cbn; split; congruence |];
          intros _; split; [reflexivity | exact Hframe]). }
  all: repeat match goal with
         | |- context [is_set (sl_ec ?e)] => destruct (is_set (sl_ec e))
         | |- context [parse_fields ?b ?f ?l] =>
             destruct (parse_fields b f l) as [[? ?] ?]
         | |- context [is_set ?e] => destruct (is_set e)
         end;
       (split; [reflexivity |]; split; [reflexivity |];
        split; [reflexivity |]; split; [reflexivity |];
        split; [reflexivity |];
        split; [cbn; destruct (buffer_ p); cbn; split; congruence |];
        intros Hf; discriminate Hf).
Qed.

(** X10.  Whenever [parse_header] reports no error the cursor invariant holds
    afterwards.  If the call set out before the body (state
    [nothing_yet], [start_line] or [fields]), the state is then [body]
    and [parsed_] stands right behind the CR LF of the blank line. *)
Theorem parse_header_success_in_bounds (p : basic_parser) :
  cursor_inv p -> capacity_ p < 2 ^ 64 ->
  snd (parse_header p) = success ->
  let p' := fst (parse_header p) in
  cursor_inv p' /\
  (state_ p = state.nothing_yet \/ state_ p = state.start_line \/
   state_ p = state.fields ->
   state_ p' = state.body /\ 2 <= parsed_ p' /\
   forall b', buffer_ p' = Some b' ->
     rd b' (parsed_ p' - 2) = CR /\ rd b' (parsed_ p' - 1) = LF).
Proof.
  intros (Hp & Hpc & Hcc) Hcap. cbv zeta. unfold parse_header.
  destruct (committed_ p =? 0); [discriminate |].
  assert (Hfields : forall b first ver,
    snd (header_fields p b first (committed_ p) ver) = success ->
    cursor_inv (fst (header_fields p b first (committed_ p) ver)) /\
    state_ (fst (header_fields p b first (committed_ p) ver)) = state.body /\
    2 <= parsed_ (fst (header_fields p b first (committed_ p) ver)) /\
    forall b', buffer_ (fst (header_fields p b first (committed_ p) ver))
               = Some b' ->
      rd b' (parsed_ (fst (header_fields p b first (committed_ p) ver)) - 2)
        = CR /\
      rd b' (parsed_ (fst (header_fields p b first (committed_ p) ver)) - 1)
        = LF).
  { intros b first ver. unfold header_fields.
    pose proof (parse_fields_blank_line b first (committed_ p)) as He.
    destruct (parse_fields b first (committed_ p)) as [[first' ec] b1].
    cbn [fst snd] in He.
    destruct (is_set ec) eqn:Hs; cbn [fst snd finish].
    { intros ->. discriminate Hs. }
    intros ->. specialize (He eq_refl).
    destruct He as (Hfwd & Hlast & Hcr & Hlf).
    assert (H2 : 0 <= first' - 2).
    { apply (rd_in_range b1). rewrite Hcr. discriminate. }
    unfold cursor_inv. cbn. rewrite wrap_small by lia.
    split; [lia |]. split; [reflexivity |]. split; [lia |].
    intros b'. destruct (buffer_ p); cbn; [| discriminate].
    intros [= <-]. auto. }
  destruct (state_ p) eqn:Hst.
  1, 2: destruct (is_set (sl_ec (parse_start_line _ _ _ _))) eqn:Hs;
        [cbn [snd finish]; intros Hec; rewrite Hec in Hs; discriminate Hs |];
        intros Hok; apply Hfields in Hok as (Hinv & Hbody); auto.
  1: intros Hok; apply Hfields in Hok as (Hinv & Hbody); auto.
  all: intros _; unfold cursor_inv; cbn; rewrite wrap_small by lia;
       (split; [lia |]); intros [E | [E | E]]; discriminate E.
Qed.

(** X11.  Once [parse_header] has reported no error, calling it again changes
    nothing and reports no error again. *)
Theorem parse_header_again (p : basic_parser) :
  snd (parse_header p) = success ->
  parse_header (fst (parse_header p)) = (fst (parse_header p), success).
Proof.
  assert (Hdone : forall q,
    committed_ q <> 0 ->
    state_ q <> state.nothing_yet -> state_ q <> state.start_line ->
    state_ q <> state.fields ->
    wrap (parsed_ q) = parsed_ q ->
    parse_header q = (q, success)).
  { intros q Hc H1 H2 H3 Hw. unfold parse_header.
    destruct (Z.eqb_spec (committed_ q) 0); [contradiction |].
    destruct q as [buf cap com par st lim sk f ver]; cbn in *.
    destruct st; try contradiction; unfold finish; cbn; rewrite Hw;
      destruct buf; reflexivity. }
  remember (parse_header p) as r eqn:Hr. unfold parse_header in Hr.
  destruct (Z.eqb_spec (committed_ p) 0) as [? | Hc];
    [subst r; discriminate |].
  assert (Hfields : forall b first ver,
    snd (header_fields p b first (committed_ p) ver) = success ->
    parse_header (fst (header_fields p b first (committed_ p) ver))
      = (fst (header_fields p b first (committed_ p) ver), success)).
  { intros b first ver. unfold header_fields.
    destruct (parse_fields b first (committed_ p)) as [[first' ec] b1].
    destruct (is_set ec) eqn:Hs; cbn [fst snd finish].
    { intros ->. discriminate Hs. }
    intros _. apply Hdone; cbn; try discriminate; [exact Hc |].
    apply wrap_wrap. }
  destruct (state_ p) eqn:Hst.
  1, 2: destruct (is_set (sl_ec (parse_start_line _ _ _ _))) eqn:Hs;
        subst r;
        [cbn [snd finish]; intros Hec; rewrite Hec in Hs; discriminate Hs |];
        apply Hfields.
  1: subst r; apply Hfields.
  all: subst r; intros _; cbn [fst finish]; apply Hdone; cbn;
       try discriminate; [exact Hc | apply wrap_wrap].
Qed.

(** X13.  With bytes committed, a call of [parse_body] or [parse_body_part]
    before [parse_header] has no effect on what [parse_header] does: the
    step from [nothing_yet] to [start_line] that they take is the one
    [parse_header] takes itself. *)
Theorem parse_body_before_header (p : basic_parser) (ec : error_code) :
  committed_ p <> 0 ->
  parse_header (fst (parse_body p ec)) = parse_header p /\
  parse_header (fst (parse_body_part p ec)) = parse_header p.
Proof.
  intros Hc. unfold parse_body, parse_body_part.
  destruct (state_ p) eqn:Hst; cbn [fst]; try (split; reflexivity).
  unfold parse_header, set_state; cbn. rewrite Hst.
  destruct (Z.eqb_spec (committed_ p) 0); [contradiction |].
  split; reflexivity.
Qed.

End header.

(** X14.  Field parsing does not depend on [string_to_field]: none of the
    handlers it selects does anything.  Two parsers with the same start
    line therefore parse every header alike. *)
Theorem field_lookup_has_no_effect (H1 H2 : parser_env) :
  (forall b start en,
     parse_field (H := H1) b start en = parse_field (H := H2) b start en) /\
  (forall b first last,
     parse_fields (H := H1) b first last = parse_fields (H := H2) b first last) /\
  ((forall b first last ver,
      parse_start_line (parser_env := H1) b first last ver
      = parse_start_line (parser_env := H2) b first last ver) ->
   forall p, parse_header (H := H1) p = parse_header (H := H2) p).
Proof.
  assert (Hf : forall b start en,
     parse_field (H := H1) b start en = parse_field (H := H2) b start en).
  { intros b start en. unfold parse_field.
    destruct (en - start <? 3); [reflexivity |].
    destruct (_ =? en - 3); [reflexivity |].
    destruct (negb _); [reflexivity |].
    destruct (_ =? start); [reflexivity |].
    destruct (value_loop _ _ _ _ _) as [[b' it' v0' v1' | b' ec] |];
      [| reflexivity | reflexivity].
    cbn [fst snd].
    destruct (string_to_field (parser_env := H1) _),
             (string_to_field (parser_env := H2) _); reflexivity. }
  assert (Hl : forall fuel b it last,
     fields_loop (H := H1) fuel b it last = fields_loop (H := H2) fuel b it last).
  { induction fuel as [| fuel IH]; intros b it last; [reflexivity |].
    simpl. rewrite Hf.
    destruct (last - it <? 2); [reflexivity |].
    destruct (rd b it =? CR); [reflexivity |].
    destruct (is_set _); [reflexivity | apply IH]. }
  assert (Hfs : forall b first last,
     parse_fields (H := H1) b first last = parse_fields (H := H2) b first last).
  { intros b first last. unfold parse_fields. rewrite Hl. reflexivity. }
  split; [exact Hf |]. split; [exact Hfs |].
  intros Hsl p. unfold parse_header, header_fields.
  destruct (committed_ p =? 0); [reflexivity |].
  destruct (state_ p); rewrite ?Hsl, ?Hfs; reflexivity.
Qed.

Lemma accepted_field_shape_s2 :
  let r := parse_field (H := request_parser) fold_field 0 12 in
  fr_kv r = Some ((0, 1), (3, 5)) /\
  rd fold_field 1 = COLON /\ fr_in r = 10 /\
  rd (fr_buf r) 8 = CR /\ rd (fr_buf r) 9 = LF.
Proof.
  cbv zeta.
  assert (Hkv : fr_kv (parse_field (H := request_parser) fold_field 0 12)
                = Some ((0, 1), (3, 5))) by (vm_compute; reflexivity).
  destruct (accepted_field_shape (H := request_parser)
              fold_field 0 12 (0, 1) (3, 5) ltac:(lia) Hkv)
    as (_ & _ & _ & _ & Hcolon & _ & _ & Hin & Hcr & Hlf & _).
  cbn [fst snd] in *. rewrite Hin in Hcr, Hlf.
  split; [exact Hkv |]. split; [exact Hcolon |]. split; [exact Hin |].
  split; [exact Hcr | exact Hlf].
Defined.

Lemma parse_fields_writes_s2 :
  let r := parse_fields (H := request_parser) fold_field 0 12 in
  rd (snd r) 4 <> rd fold_field 4 /\ rd (snd r) 4 = SP /\
  length (snd r) = length fold_field.
Proof.
  cbv zeta.
  assert (Hd : rd (snd (parse_fields (H := request_parser) fold_field 0 12)) 4
               <> rd fold_field 4) by (vm_compute; discriminate).
  destruct (parse_fields_writes (H := request_parser) fold_field 0 12)
    as (_ & Hlen & Hdiff).
  destruct (Hdiff 4 Hd) as (_ & Hsp & _).
  split; [exact Hd |]. split; [exact Hsp | exact Hlen].
Defined.

Lemma parse_fields_ends_at_blank_line_s2 :
  let r := parse_fields (H := request_parser) fold_field 0 12 in
  snd (fst r) = success /\ fst (fst r) <= 12 /\
  rd (snd r) (fst (fst r) - 2) = CR.
Proof.
  cbv zeta.
  assert (Hok : snd (fst (parse_fields (H := request_parser) fold_field 0 12))
                = success) by (vm_compute; reflexivity).
  destruct (parse_fields_ends_at_blank_line (H := request_parser)
              fold_field 0 12 Hok) as (_ & Hlast & Hcr & _).
  split; [exact Hok |]. split; [exact Hlast | exact Hcr].
Defined.

Lemma fold_parser_ready :
  cursor_inv fold_parser /\ capacity_ fold_parser < 2 ^ 64 /\
  committed_ fold_parser <> 0 /\
  snd (parse_header (H := request_parser) fold_parser) = success.
Proof.
  split; [unfold cursor_inv; vm_compute; intuition discriminate |].
  split; [vm_compute; reflexivity |].
  split; [vm_compute; discriminate | vm_compute; reflexivity].
Qed.

Lemma parse_header_success_in_bounds_s2 :
  cursor_inv (fst (parse_header (H := request_parser) fold_parser)) /\
  state_ (fst (parse_header (H := request_parser) fold_parser)) = state.body.
Proof.
  destruct fold_parser_ready as (Hinv & Hcap & _ & Hok).
  destruct (parse_header_success_in_bounds (H := request_parser)
              fold_parser Hinv Hcap Hok) as (Hinv' & Hbody).
  split; [exact Hinv' |].
  apply Hbody. left. vm_compute. reflexivity.
Defined.

Lemma parse_header_again_s2 :
  parse_header (H := request_parser)
      (fst (parse_header (H := request_parser) fold_parser))
    = (fst (parse_header (H := request_parser) fold_parser), success).
Proof.
  destruct fold_parser_ready as (_ & _ & _ & Hok).
  exact (parse_header_again (H := request_parser) fold_parser Hok).
Defined.

Lemma parse_body_before_header_s2 :
  parse_header (H := request_parser) (fst (parse_body fold_parser success))
    = parse_header (H := request_parser) fold_parser.
Proof.
  destruct fold_parser_ready as (_ & _ & Hc & _).
  exact (proj1 (parse_body_before_header (H := request_parser)
                  fold_parser success Hc)).
Defined.

Lemma parse_header_keeps_members_blank_line :
  state_ blank_line_parser = state.fields /\
  version_ (fst (parse_header (H := request_parser) blank_line_parser))
    = version_ blank_line_parser /\
  committed_ (fst (parse_header (H := request_parser) blank_line_parser))
    = committed_ blank_line_parser.
Proof.
  assert (Hst : state_ blank_line_parser = state.fields)
    by (vm_compute; reflexivity).
  destruct (parse_header_keeps_members (H := request_parser) blank_line_parser)
    as (Hc & _ & _ & _ & _ & _ & Hf).
  destruct (Hf Hst) as (Hv & _).
  split; [exact Hst |]. split; [exact Hv | exact Hc].
Defined.

Lemma field_lookup_has_no_effect_s2 :
  parse_header (H := request_parser) fold_parser
    = parse_header (H := connection_only) fold_parser.
Proof.
  apply (proj2 (proj2 (field_lookup_has_no_effect request_parser
                         connection_only))).
  intros b first last ver. reflexivity.
Defined.

(** ** consume and is_valid at the edges *)

Section bnf_edges.
Import bnf.
Context `{error_category}.

(** X17.  The empty view passes [is_valid] for every element that does not
    match it: when [parse] fails on it or gives any code but
    [error::end], [consume] returns [start], which is [end].  The same
    holds for a list whose [begin] fails on it. *)
Theorem is_valid_empty_view (fuel : nat) :
  (forall (E : Type) `{!Element E},
     failed (snd (parse (E := E) [] 0 0)) = true \/
     snd (parse (E := E) [] 0 0) <> end_ ->
     is_valid E fuel [] = Some true) /\
  (forall (L : Type) `{!List L},
     snd (begin_ (L := L) [] 0 0) <> end_ ->
     failed (snd (begin_ (L := L) [] 0 0)) = true ->
     is_valid L (S fuel) [] = Some true).
Proof.
  split.
  - intros E HE Hno. unfold is_valid, consume, element_BNF, consume_element.
    change (Z.of_nat (length (@nil Z))) with 0.
    destruct (parse [] 0 0) as [it ec]. cbn [snd] in Hno.
    destruct (failed ec) eqn:Hf; [reflexivity |].
    destruct Hno as [Hno | Hno]; [discriminate Hno |].
    rewrite bool_decide_eq_false_2 by exact Hno. reflexivity.
  - intros L HL Hne Hf. unfold is_valid, consume, list_BNF, consume_list.
    change (Z.of_nat (length (@nil Z))) with 0.
    destruct (begin_ [] 0 0) as [[e it] ec]. cbn [snd] in Hne, Hf.
    cbn [consume_loop].
    rewrite bool_decide_eq_false_2 by exact Hne. rewrite Hf. reflexivity.
Qed.

(** X18.  In a category where [error::end] counts as a failure, the test
    [ec.failed()] comes first in [consume<Element>] and wins: [consume]
    returns [start] for every element and every input, and [is_valid]
    passes the empty view and nothing else. *)
Theorem consume_element_when_end_fails :
  failed end_ = true ->
  forall (E : Type) `{!Element E},
    (forall b start en, consume_element E b start en = start) /\
    (forall fuel s, is_valid E fuel s = Some true <-> s = []).
Proof.
  intros Hend E HE.
  assert (Hc : forall b start en, consume_element E b start en = start).
  { intros b start en. unfold consume_element.
    destruct (parse b start en) as [it ec].
    destruct (failed ec) eqn:Hf; [reflexivity |].
    rewrite bool_decide_eq_false_2; [reflexivity |].
    intros ->. rewrite Hend in Hf. discriminate Hf. }
  split; [exact Hc |].
  intros fuel s. unfold is_valid, consume, element_BNF. rewrite Hc. cbn.
  destruct s as [| c s]; cbn [length].
  - split; reflexivity || (intros _; reflexivity).
  - rewrite bool_decide_eq_false_2 by lia.
    split; discriminate.
Qed.

End bnf_edges.

Lemma is_valid_empty_view_crlf :
  bnf.is_valid (H := bnf.element_BNF (H := signal_category)
                        (H0 := crlf_element) crlf_rule)
    crlf_rule 0 [] = Some true.
Proof.
  apply (proj1 (is_valid_empty_view (H := signal_category) 0)
           crlf_rule crlf_element).
  right. discriminate.
Defined.

Lemma consume_element_when_end_fails_default :
  bnf.consume_element (H := is_set) (H0 := crlf_element) crlf_rule crlf 0 2 = 0.
Proof.
  exact (proj1 (consume_element_when_end_fails (H := is_set) eq_refl
                  crlf_rule (Element0 := crlf_element)) crlf 0 2).
Defined.

(** ** What field parsing reports and where the parser can get *)

Section outcomes.
Context `{parser_env}.

(** X15.  Field parsing reports [need_more], [bad_field], [bad_line_ending],
    [bad_value] or nothing: [parse_field] and [parse_fields] assign no
    other code, and neither does [parse_header] once the start line is
    behind it.  The handlers for Connection, Content-Length,
    Transfer-Encoding and Upgrade report nothing. *)
Theorem field_parsing_codes :
  (forall b start en,
     fr_ec (parse_field b start en) = success \/
     field_error (fr_ec (parse_field b start en))) /\
  (forall b first last,
     snd (fst (parse_fields b first last)) = success \/
     field_error (snd (fst (parse_fields b first last)))) /\
  (forall p, state_ p = state.fields ->
     snd (parse_header p) = success \/ field_error (snd (parse_header p))).
Proof.
  split; [exact parse_field_codes |]. split; [exact parse_fields_codes |].
  intros p Hst. unfold parse_header. rewrite Hst.
  destruct (committed_ p =? 0); [right; unfold field_error; auto |].
  unfold header_fields.
  pose proof (parse_fields_codes (default [] (buffer_ p)) (parsed_ p)
                (committed_ p)) as Hc.
  destruct (parse_fields _ _ _) as [[first' ec] b']. cbn [fst snd] in Hc.
  destruct (is_set ec); exact Hc.
Qed.

Lemma reachable_receive (junk : Z -> Z) (data : list Z) (n : Z)
    (p : basic_parser) :
  reachable p -> reachable (receive junk data n p).
Proof.
  intros Hr. unfold receive.
  destruct (prepare junk p) as [p' [off room]] eqn:Hp.
  apply reach_commit, reach_store.
  change p' with (fst (p', (off, room))). rewrite <- Hp.
  apply reach_prepare, Hr.
Qed.

(** X16.  No sequence of public operations takes the parser past [body]: its
    state is always [nothing_yet], [start_line], [fields] or [body], so
    it never reaches a chunk state or [complete]. *)
Theorem parser_stays_before_complete (p : basic_parser) :
  reachable p ->
  state_ p = state.nothing_yet \/ state_ p = state.start_line \/
  state_ p = state.fields \/ state_ p = state.body.
Proof.
  induction 1 as [| | junk p _ IH | | | | p _ IH | p ec _ IH | p ec _ IH | | |];
    try assumption; [auto | | | |].
  - unfold prepare. simpl. destruct (buffer_ p); simpl; [| exact IH].
    destruct (capacity_ p <=? committed_ p); exact IH.
  - destruct (parse_header_state p) as [-> | [-> | [-> | [-> _]]]]; auto.
  - unfold parse_body. destruct (state_ p) eqn:E; simpl; rewrite ?E; auto.
  - unfold parse_body_part.
    destruct (state_ p) eqn:E; simpl; rewrite ?E; auto.
Qed.

End outcomes.

Lemma parser_stays_before_complete_s2 :
  state_ (fst (parse_body
                 (fst (parse_header (H := request_parser) fold_parser))
                 success)) = state.body.
Proof.
  assert (Hr : reachable (H := request_parser)
                 (fst (parse_body
                         (fst (parse_header (H := request_parser) fold_parser))
                         success))).
  { apply reach_parse_body, reach_parse_header, reachable_receive,
      reach_construct. }
  destruct (parser_stays_before_complete (H := request_parser) _ Hr)
    as [E | [E | [E | E]]]; [exfalso | exfalso | exfalso | exact E];
    revert E; vm_compute; discriminate.
Defined.

Lemma field_parsing_codes_blank_line :
  state_ blank_line_parser = state.fields /\
  (snd (parse_header (H := request_parser) blank_line_parser) = success \/
   field_error (snd (parse_header (H := request_parser) blank_line_parser))).
Proof.
  assert (Hst : state_ blank_line_parser = state.fields)
    by (vm_compute; reflexivity).
  split; [exact Hst |].
  exact (proj2 (proj2 (field_parsing_codes (H := request_parser)))
           blank_line_parser Hst).
Defined.

Section bnf_lists.
Import bnf.
Context `{error_category}.

Lemma consume_loop_needs_end (L : Type) `{!List L} (fuel : nat)
    (e : members (L := L)) (b : list Z) (start it en : Z) (ec : error_code)
    (r : Z) :
  (forall e b it en ec, snd (increment (L := L) e b it en ec) <> end_) ->
  ec <> end_ ->
  consume_loop L fuel e b start it en ec = Some r -> r = start.
Proof.
  intros Hinc. revert e it ec.
  induction fuel as [| fuel IH]; intros e it ec Hne; [discriminate |].
  cbn [consume_loop].
  rewrite bool_decide_eq_false_2 by exact Hne.
  destruct (failed ec); [intros [= <-]; reflexivity |].
  pose proof (Hinc e b it en ec) as Hne'.
  destruct (increment e b it en ec) as [[e' it'] ec']. cbn [snd] in Hne'.
  apply IH. exact Hne'.
Qed.

(** X19.  [consume<List>] gives up everything it has matched as soon as a step
    fails: a pointer other than [start] comes back only when the list
    signals [error::end].  For a list that never does, every run that
    ends returns [start]. *)
Theorem consume_list_needs_end (L : Type) `{!List L} :
  (forall b start en, snd (begin_ (L := L) b start en) <> end_) ->
  (forall e b it en ec, snd (increment (L := L) e b it en ec) <> end_) ->
  forall fuel b start en r,
    consume_list L fuel b start en = Some r -> r = start.
Proof.
  intros Hbegin Hinc fuel b start en r. unfold consume_list.
  pose proof (Hbegin b start en) as Hne.
  destruct (begin_ b start en) as [[e it] ec]. cbn [snd] in Hne.
  apply consume_loop_needs_end; assumption.
Qed.

End bnf_lists.

Lemma consume_list_needs_end_stuck :
  exists r,
    bnf.consume_list (H := signal_category) (H0 := stuck_list)
      stuck_rule 2 crlf 0 2 = Some r /\ r = 0.
Proof.
  eexists. split; [reflexivity |].
  apply (consume_list_needs_end (H := signal_category) stuck_rule
           (List0 := stuck_list)
           ltac:(intros; discriminate) ltac:(intros; discriminate)
           2%nat crlf 0 2).
  reflexivity.
Defined.
